(** * Output descriptors with miniscript: a shallow embedding of [src/index.ts]

    The development follows the source file top to bottom: JavaScript
    strings and regular expressions first (the descriptor grammar of the
    source is a suite of regular-expression strings, kept here as the same
    strings and read by [RegExp]), then the services the factory consumes,
    then [isolate], [derivePath], [keyExpression2PubKey],
    [countNonPushOnlyOPs], [solveMiniscript] and the [Descriptor] class.

    Strings are lists of [ascii] code units: the model covers strings whose
    code units are below 256. *)

From Stdlib Require Import Ascii String ZArith NArith Lia Bool Arith DecimalString DecimalN List.
Import ListNotations.

Open Scope string_scope.
Open Scope char_scope.
Open Scope list_scope.

(** ** JavaScript strings *)

Definition jsstring := list ascii.

Definition str (s : string) : jsstring := list_ascii_of_string s.
Coercion str : string >-> jsstring.

(** Concatenation of JavaScript strings, literals included. *)
Notation "a +++ b" := (@app ascii (a : jsstring) (b : jsstring))
  (at level 60, right associativity, only parsing).

Definition bytes := list Byte.byte.

Definition ascii_eqb (a b : ascii) : bool := Ascii.eqb a b.

Fixpoint jsstring_eqb (a b : jsstring) : bool :=
  match a, b with
  | [], [] => true
  | x :: a', y :: b' => ascii_eqb x y && jsstring_eqb a' b'
  | _, _ => false
  end.

Fixpoint startsWith (s pat : jsstring) : bool :=
  match pat, s with
  | [], _ => true
  | p :: pat', c :: s' => ascii_eqb p c && startsWith s' pat'
  | _ :: _, [] => false
  end.

(** [s.endsWith(pat)] *)
Definition endsWith (s pat : jsstring) : bool :=
  startsWith (rev s) (rev pat).

(** [s.substring(0, n)] and [s.slice(n)] for [0 <= n]. *)
Definition substring0 (s : jsstring) (n : nat) : jsstring := firstn n s.
Definition slice_from (s : jsstring) (n : nat) : jsstring := skipn n s.
(** [s.slice(0, -n)] *)
Definition slice_drop_last (s : jsstring) (n : nat) : jsstring :=
  firstn (length s - n) s.

(** [s.replaceAll(pat, rep)] with a string pattern: every occurrence, left
    to right, without overlap.  [skip] counts the code units of an
    occurrence that are still to be dropped.  With the empty pattern
    JavaScript puts [rep] before every code unit and at the end. *)
Fixpoint replaceAll_go (pat rep s : jsstring) (skip : nat) : jsstring :=
  match s with
  | [] => match pat with [] => rep | _ => [] end
  | c :: t =>
      match skip with
      | S n => replaceAll_go pat rep t n
      | O =>
          match pat with
          | [] => rep ++ c :: replaceAll_go pat rep t 0
          | _ :: _ =>
              if startsWith s pat
              then rep ++ replaceAll_go pat rep t (length pat - 1)
              else c :: replaceAll_go pat rep t 0
          end
      end
  end.

Definition replaceAll (s pat rep : jsstring) : jsstring :=
  replaceAll_go pat rep s 0.

(** [s.split(sep)] with a non-empty string separator: [cur] is the piece
    being read, in reverse. *)
Fixpoint split_go (sep s cur : jsstring) (skip : nat) : list jsstring :=
  match s with
  | [] => [rev cur]
  | c :: t =>
      match skip with
      | S n => split_go sep t cur n
      | O =>
          if startsWith s sep
          then rev cur :: split_go sep t [] (length sep - 1)
          else split_go sep t (c :: cur) 0
      end
  end.

(** With the empty separator JavaScript splits into code units. *)
Definition split (s sep : jsstring) : list jsstring :=
  match sep with
  | [] => map (fun c => [c]) s
  | _ :: _ => split_go sep s [] 0
  end.

(** White space and line terminators below 256: what [\s] matches and
    [trim] removes. *)
Definition isWhiteSpace (c : ascii) : bool :=
  let n := N_of_ascii c in
  ((9 <=? n) && (n <=? 13) || (n =? 32) || (n =? 160))%N.

Fixpoint trimStart (s : jsstring) : jsstring :=
  match s with
  | c :: t => if isWhiteSpace c then trimStart t else s
  | [] => []
  end.

Definition trim (s : jsstring) : jsstring :=
  rev (trimStart (rev (trimStart s))).

(** ** Regular expressions

    The abstract syntax of the patterns the source uses, the reader of
    pattern text, and a backtracking matcher in continuation-passing style
    that tries alternatives in the order ECMAScript prescribes. *)

Inductive regex : Type :=
| Empty
| Class (neg : bool) (ranges : list (ascii * ascii))
| Bol
| Eol
| WordBoundary
| Seq (r1 r2 : regex)
| Alt (r1 r2 : regex)
| Quant (min : nat) (max : option nat) (greedy : bool) (r : regex)
| Group (n : nat) (r : regex)
| NonCapture (r : regex)
| NotBehind (neg : bool) (ranges : list (ascii * ascii))
| NotAhead (r : regex).

Definition Chr (c : ascii) : regex := Class false [(c, c)].
(** [.] matches any code unit but a line terminator. *)
Definition Dot : regex := Class true [("010", "010"); ("013", "013")].
Definition Digit : regex := Class false [("0", "9")].
Definition Space : regex :=
  Class false [("009", "013"); (" ", " "); ("160", "160")].
Definition Word : list (ascii * ascii) :=
  [("a", "z"); ("A", "Z"); ("0", "9"); ("_", "_")].

Definition in_range (c : ascii) (r : ascii * ascii) : bool :=
  (N_of_ascii (fst r) <=? N_of_ascii c)%N && (N_of_ascii c <=? N_of_ascii (snd r))%N.

Definition in_class (neg : bool) (ranges : list (ascii * ascii)) (c : ascii) : bool :=
  xorb neg (existsb (in_range c) ranges).

(** *** Reading pattern text *)

Definition is_digit (c : ascii) : bool := in_range c ("0", "9").

Definition digit_value (c : ascii) : nat :=
  N.to_nat (N_of_ascii c) - 48.

Fixpoint read_nat (s : jsstring) (acc : nat) : nat * jsstring :=
  match s with
  | c :: t => if is_digit c then read_nat t (10 * acc + digit_value c) else (acc, s)
  | [] => (acc, [])
  end.

(** The items of a class, up to the closing bracket. *)
Fixpoint read_class (s : jsstring) (acc : list (ascii * ascii))
  : option (list (ascii * ascii) * jsstring) :=
  match s with
  | [] => None
  | "]" :: t => Some (rev acc, t)
  | "\" :: _ => None
  | a :: "-" :: "]" :: t => Some (rev (("-", "-") :: (a, a) :: acc), t)
  | _ :: "-" :: "\" :: _ => None
  | a :: "-" :: b :: t => read_class t ((a, b) :: acc)
  | a :: t => read_class t ((a, a) :: acc)
  end.

Definition read_escape (c : ascii) : option regex :=
  if ascii_eqb c "d" then Some Digit
  else if ascii_eqb c "s" then Some Space
  else if in_class false Word c then None
  else Some (Chr c).

(** A quantifier after an atom: [*], [+], [?], [{n}], [{n,}], [{n,m}],
    each lazy when followed by [?]. *)
Definition read_lazy (min : nat) (max : option nat) (atom : regex) (s : jsstring)
  : regex * jsstring :=
  match s with
  | "?" :: t => (Quant min max false atom, t)
  | _ => (Quant min max true atom, s)
  end.

Definition read_quantifier (atom : regex) (s : jsstring) : option (regex * jsstring) :=
  match s with
  | "*" :: t => Some (read_lazy 0 None atom t)
  | "+" :: t => Some (read_lazy 1 None atom t)
  | "?" :: t => Some (read_lazy 0 (Some 1) atom t)
  | "{" :: t =>
      let '(lo, t1) := read_nat t 0 in
      match t1 with
      | "}" :: t2 => Some (read_lazy lo (Some lo) atom t2)
      | "," :: "}" :: t2 => Some (read_lazy lo None atom t2)
      | "," :: t2 =>
          let '(hi, t3) := read_nat t2 0 in
          match t3 with
          | "}" :: t4 => Some (read_lazy lo (Some hi) atom t4)
          | _ => None
          end
      | _ => None
      end
  | _ => Some (atom, s)
  end.

Definition is_syntax_char (c : ascii) : bool :=
  existsb (ascii_eqb c) (str "*+?{}|)]").

(** Disjunction, alternative and term of the ECMAScript pattern grammar.
    [g] is the number of capturing groups opened so far: groups are numbered
    by their opening parenthesis, from 1. *)
Fixpoint read_disjunction (fuel : nat) (s : jsstring) (g : nat)
  {struct fuel} : option (regex * jsstring * nat) :=
  match fuel with
  | O => None
  | S f =>
      match read_alternative f s g with
      | Some (r1, "|" :: t, g1) =>
          match read_disjunction f t g1 with
          | Some (r2, t2, g2) => Some (Alt r1 r2, t2, g2)
          | None => None
          end
      | other => other
      end
  end
with read_alternative (fuel : nat) (s : jsstring) (g : nat)
  {struct fuel} : option (regex * jsstring * nat) :=
  match fuel with
  | O => None
  | S f =>
      match s with
      | [] => Some (Empty, s, g)
      | "|" :: _ => Some (Empty, s, g)
      | ")" :: _ => Some (Empty, s, g)
      | _ =>
          match read_term f s g with
          | Some (r1, t, g1) =>
              match t with
              | [] => Some (r1, t, g1)
              | "|" :: _ => Some (r1, t, g1)
              | ")" :: _ => Some (r1, t, g1)
              | _ =>
                  match read_alternative f t g1 with
                  | Some (r2, t2, g2) => Some (Seq r1 r2, t2, g2)
                  | None => None
                  end
              end
          | None => None
          end
      end
  end
with read_term (fuel : nat) (s : jsstring) (g : nat)
  {struct fuel} : option (regex * jsstring * nat) :=
  let quantified (atom : regex) (t : jsstring) (g' : nat) :=
    match read_quantifier atom t with
    | Some (r, t') => Some (r, t', g')
    | None => None
    end in
  match fuel with
  | O => None
  | S f =>
      match s with
      | "^" :: t => Some (Bol, t, g)
      | "$" :: t => Some (Eol, t, g)
      | "\" :: "b" :: t => Some (WordBoundary, t, g)
      | "(" :: "?" :: "<" :: "!" :: t =>
          match read_disjunction f t g with
          | Some (Class neg ranges, ")" :: t', g') => Some (NotBehind neg ranges, t', g')
          | _ => None
          end
      | "(" :: "?" :: "!" :: t =>
          match read_disjunction f t g with
          | Some (r, ")" :: t', g') => Some (NotAhead r, t', g')
          | _ => None
          end
      | "(" :: "?" :: ":" :: t =>
          match read_disjunction f t g with
          | Some (r, ")" :: t', g') => quantified (NonCapture r) t' g'
          | _ => None
          end
      | "(" :: "?" :: _ => None
      | "(" :: t =>
          match read_disjunction f t (S g) with
          | Some (r, ")" :: t', g') => quantified (Group (S g) r) t' g'
          | _ => None
          end
      | "[" :: "^" :: t =>
          match read_class t [] with
          | Some (ranges, t') => quantified (Class true ranges) t' g
          | None => None
          end
      | "[" :: t =>
          match read_class t [] with
          | Some (ranges, t') => quantified (Class false ranges) t' g
          | None => None
          end
      | "." :: t => quantified Dot t g
      | "\" :: c :: t =>
          match read_escape c with
          | Some atom => quantified atom t g
          | None => None
          end
      | c :: t => if is_syntax_char c then None else quantified (Chr c) t g
      | [] => None
      end
  end.

(** [new RegExp(source)]: [None] stands for the SyntaxError of a malformed
    pattern (or a pattern outside the fragment read here). *)
Definition RegExp (source : jsstring) : option regex :=
  match read_disjunction (4 * length source + 4) source 0 with
  | Some (r, [], _) => Some r
  | _ => None
  end.

(** *** Matching

    A match state is a position in the input: the code unit before it (for
    [^], [\b] and the lookbehind), the input from it on, and the captures
    made so far, latest first. *)

Record mstate : Type := MState {
  prev : option ascii;
  rest : jsstring;
  caps : list (nat * jsstring)
}.

Definition orelse {A : Type} (a b : option A) : option A :=
  match a with
  | Some x => Some x
  | None => b
  end.

(** The code units between two positions of one input. *)
Definition consumed (s s' : mstate) : jsstring :=
  firstn (length (rest s) - length (rest s')) (rest s).

Definition is_word (o : option ascii) : bool :=
  match o with
  | Some c => in_class false Word c
  | None => false
  end.

(** The capturing groups inside a pattern: a quantifier clears them at the
    start of every iteration. *)
Fixpoint groups_of (r : regex) : list nat :=
  match r with
  | Seq r1 r2 | Alt r1 r2 => groups_of r1 ++ groups_of r2
  | Quant _ _ _ r' | NonCapture r' | NotAhead r' => groups_of r'
  | Group n r' => n :: groups_of r'
  | _ => []
  end.

Definition clear_caps (gs : list nat) (s : mstate) : mstate :=
  MState (prev s) (rest s)
    (filter (fun c => negb (existsb (Nat.eqb (fst c)) gs)) (caps s)).

Definition set_cap (n : nat) (v : jsstring) (s : mstate) : mstate :=
  MState (prev s) (rest s) ((n, v) :: caps s).

Definition max_is_zero (max : option nat) : bool :=
  match max with
  | Some O => true
  | _ => false
  end.

(** RepeatMatcher: [m] matches the quantified atom, [gs] are its groups.
    An iteration that is no longer required and consumes nothing is
    rejected, so [fuel], one more than the required iterations plus the
    code units left, is never exhausted. *)
Fixpoint RepeatMatcher (m : mstate -> (mstate -> option mstate) -> option mstate)
  (gs : list nat) (greedy : bool) (k : mstate -> option mstate)
  (fuel min : nat) (max : option nat) (x : mstate) {struct fuel} : option mstate :=
  match fuel with
  | O => None
  | S fuel' =>
      if max_is_zero max then k x
      else
        let again :=
          m (clear_caps gs x)
            (fun y =>
               if Nat.eqb min 0 && Nat.eqb (length (rest y)) (length (rest x))
               then None
               else RepeatMatcher m gs greedy k fuel' (pred min) (option_map pred max) y) in
        if negb (Nat.eqb min 0) then again
        else if greedy then orelse again (k x)
        else orelse (k x) again
  end.

(** [rmatch r s k]: match [r] at [s] and hand every way of doing so, in
    priority order, to the continuation [k] until it accepts one. *)
Fixpoint rmatch (r : regex) (s : mstate) (k : mstate -> option mstate)
  {struct r} : option mstate :=
  match r with
  | Empty => k s
  | Class neg ranges =>
      match rest s with
      | c :: t => if in_class neg ranges c then k (MState (Some c) t (caps s)) else None
      | [] => None
      end
  | Bol => match prev s with None => k s | Some _ => None end
  | Eol => match rest s with [] => k s | _ :: _ => None end
  | WordBoundary =>
      if xorb (is_word (prev s)) (is_word (hd_error (rest s))) then k s else None
  | Seq r1 r2 => rmatch r1 s (fun s1 => rmatch r2 s1 k)
  | Alt r1 r2 => orelse (rmatch r1 s k) (rmatch r2 s k)
  | Quant min max greedy r' =>
      RepeatMatcher (rmatch r') (groups_of r') greedy k
        (S (min + length (rest s))) min max s
  | Group n r' => rmatch r' s (fun s' => k (set_cap n (consumed s s') s'))
  | NonCapture r' => rmatch r' s k
  | NotBehind neg ranges =>
      match prev s with
      | Some c => if in_class neg ranges c then None else k s
      | None => k s
      end
  | NotAhead r' =>
      match rmatch r' s (fun s' => Some s') with
      | Some _ => None
      | None => k s
      end
  end.

(** The result of [RegExpBuiltinExec]: where the match starts, the matched
    text (element 0 of the match array), its captures, and the position
    after it. *)
Record match_result : Type := MatchResult {
  m_index : nat;
  matched : jsstring;
  captures : list (nat * jsstring);
  after : mstate
}.

Definition match_at (r : regex) (i : nat) (s : mstate) : option match_result :=
  match rmatch r (MState (prev s) (rest s) []) (fun s' => Some s') with
  | Some s' => Some (MatchResult i (consumed s s') (caps s') s')
  | None => None
  end.

Definition step (s : mstate) : mstate :=
  match rest s with
  | c :: t => MState (Some c) t (caps s)
  | [] => s
  end.

(** The first match at or after a position: every start is tried, the end
    of the input included. *)
Fixpoint exec_from (r : regex) (i : nat) (p : option ascii) (input : jsstring)
  : option match_result :=
  match match_at r i (MState p input []) with
  | Some m => Some m
  | None =>
      match input with
      | c :: t => exec_from r (S i) (Some c) t
      | [] => None
      end
  end.

Definition exec (r : regex) (input : jsstring) : option match_result :=
  exec_from r 0 None input.

(** Capture [n] of a match array: [None] is JavaScript's undefined. *)
Definition capture (m : match_result) (n : nat) : option jsstring :=
  match n with
  | O => Some (matched m)
  | _ =>
      match find (fun c => Nat.eqb (fst c) n) (captures m) with
      | Some c => Some (snd c)
      | None => None
      end
  end.

(** A pattern that matches nowhere stands for a pattern that does not
    compile; [source_patterns_compile] below shows that none of the
    patterns of the source is read that way. *)
Definition compile (source : jsstring) : regex :=
  match RegExp source with
  | Some r => r
  | None => Class false []
  end.

(** [s.match(pattern)] with a pattern string or a regular expression
    without the global flag. *)
Definition String_match (s : jsstring) (source : jsstring) : option match_result :=
  exec (compile source) s.

(** Every match of a global regular expression, left to right: after an
    empty match the search moves one code unit on. *)
Fixpoint exec_all (r : regex) (fuel i : nat) (p : option ascii) (input : jsstring)
  : list match_result :=
  match fuel with
  | O => []
  | S fuel' =>
      match exec_from r i p input with
      | None => []
      | Some m =>
          let a := after m in
          match matched m with
          | [] =>
              match rest a with
              | c :: t => m :: exec_all r fuel' (S (m_index m)) (Some c) t
              | [] => [m]
              end
          | _ :: _ =>
              m :: exec_all r fuel' (m_index m + length (matched m)) (prev a) (rest a)
          end
      end
  end.

Definition String_matchAll (s : jsstring) (source : jsstring) : list match_result :=
  exec_all (compile source) (S (length s)) 0 None s.

(** [s.match(/.../g)]: the matched texts, or null when there are none. *)
Definition String_match_global (s : jsstring) (source : jsstring) : option (list jsstring) :=
  match String_matchAll s source with
  | [] => None
  | ms => Some (map matched ms)
  end.

(** [s.search(pattern)]: the index of the first match, or -1. *)
Definition String_search (s : jsstring) (source : jsstring) : Z :=
  match String_match s source with
  | Some m => Z.of_nat (m_index m)
  | None => (-1)%Z
  end.

(** The text of [s] with the given matches, taken at increasing indices,
    replaced: [from] is the index of the first code unit of [s]. *)
Fixpoint splice (s : jsstring) (from : nat) (ms : list (match_result * jsstring)) : jsstring :=
  match ms with
  | [] => s
  | (m, rep) :: ms' =>
      firstn (m_index m - from) s ++ rep ++
      splice (skipn (m_index m - from + length (matched m)) s)
             (m_index m + length (matched m)) ms'
  end.

(** [s.replace(pattern, rep)] with a regular expression without the global
    flag and a replacement text without [$] patterns. *)
Definition String_replace (s : jsstring) (source : jsstring) (rep : jsstring) : jsstring :=
  match String_match s source with
  | Some m => splice s 0 [(m, rep)]
  | None => s
  end.

(** [s.replace(/.../g, rep)], the same with the global flag. *)
Definition String_replace_global (s : jsstring) (source : jsstring)
  (rep : jsstring -> jsstring) : jsstring :=
  splice s 0 (map (fun m => (m, rep (matched m))) (String_matchAll s source)).

Close Scope char_scope.

(** ** The grammar of the source

    The pattern strings of [src/index.ts], composed as the source composes
    them.  [CHECKSUM_CHARSET] comes from the checksum module. *)

(** Modelled from the spec: [CHECKSUM_CHARSET], a constant of the checksum
    module ([src/checksum.ts]), which is not among the sources.  It is the
    symbol table of the published descriptor checksum the specification
    refers to. *)
Definition CHECKSUM_CHARSET : jsstring := "qpzry9x8gf2tvdw0s3jn54khce6mua7l".

Definition reHardened : jsstring := "(['hH])".
Definition reLevel : jsstring := "(\d+" +++ reHardened +++ "?)".
Definition rePathComponent : jsstring := "(" +++ reLevel +++ "\/)".
Definition reOriginPath : jsstring := "(\/" +++ rePathComponent +++ "*" +++ reLevel +++ ")".
Definition reOrigin : jsstring := "(\[[0-9a-fA-F]{8}(" +++ reOriginPath +++ ")?\])".
Definition reChecksum : jsstring := "(#[" +++ CHECKSUM_CHARSET +++ "]{8})".
Definition reCompressedPubKey : jsstring := "((02|03)[0-9a-fA-F]{64})".
Definition reUncompressedPubKey : jsstring := "(04[0-9a-fA-F]{128})".
Definition rePubKey : jsstring :=
  "(" +++ reCompressedPubKey +++ "|" +++ reUncompressedPubKey +++ ")".
Definition reWIF : jsstring := "([5KLc9][1-9A-HJ-NP-Za-km-z]{50,51})".
Definition reXpub : jsstring := "([xXtT]pub[1-9A-HJ-NP-Za-km-z]{79,108})".
Definition reXprv : jsstring := "([xXtT]prv[1-9A-HJ-NP-Za-km-z]{79,108})".
Definition reRangeLevel : jsstring := "(\*(" +++ reHardened +++ ")?)".
Definition rePath : jsstring :=
  "(\/(" +++ rePathComponent +++ ")*(" +++ reRangeLevel +++ "|" +++ reLevel +++ "))".
Definition reXpubKey : jsstring := "(" +++ reXpub +++ ")(" +++ rePath +++ ")?".
Definition reXprvKey : jsstring := "(" +++ reXprv +++ ")(" +++ rePath +++ ")?".
Definition reActualKey : jsstring :=
  "(" +++ reXpubKey +++ "|" +++ reXprvKey +++ "|" +++ rePubKey +++ "|" +++ reWIF +++ ")".
Definition reKeyExp : jsstring := "(" +++ reOrigin +++ ")?(" +++ reActualKey +++ ")".

Definition rePk : jsstring := "pk\((.*?)\)".
Definition reAddr : jsstring := "addr\((.*?)\)".
Definition rePkh : jsstring := "pkh\(" +++ reKeyExp +++ "\)".
Definition reWpkh : jsstring := "wpkh\(" +++ reKeyExp +++ "\)".
Definition reShWpkh : jsstring := "sh\(wpkh\(" +++ reKeyExp +++ "\)\)".
Definition reMiniscript : jsstring := "(.*?)".

Definition makeReSh (re : jsstring) : jsstring := "sh\(" +++ re +++ "\)".
Definition makeReWsh (re : jsstring) : jsstring := "wsh\(" +++ re +++ "\)".
Definition makeReShWsh (re : jsstring) : jsstring := makeReSh (makeReWsh re).

Definition anchorStartAndEnd (re : jsstring) : jsstring := "^" +++ re +++ "$".
Definition composeChecksum (re : jsstring) : jsstring := re +++ "(" +++ reChecksum +++ ")?".

Definition rePkAnchored : jsstring := anchorStartAndEnd (composeChecksum rePk).
Definition reAddrAnchored : jsstring := anchorStartAndEnd (composeChecksum reAddr).
Definition rePkhAnchored : jsstring := anchorStartAndEnd (composeChecksum rePkh).
Definition reWpkhAnchored : jsstring := anchorStartAndEnd (composeChecksum reWpkh).
Definition reShWpkhAnchored : jsstring := anchorStartAndEnd (composeChecksum reShWpkh).
Definition reShMiniscriptAnchored : jsstring :=
  anchorStartAndEnd (composeChecksum (makeReSh reMiniscript)).
Definition reShWshMiniscriptAnchored : jsstring :=
  anchorStartAndEnd (composeChecksum (makeReShWsh reMiniscript)).
Definition reWshMiniscriptAnchored : jsstring :=
  anchorStartAndEnd (composeChecksum (makeReWsh reMiniscript)).

(** The patterns written in place in the source. *)
Definition reChecksumAtEnd : jsstring := "(" +++ reChecksum +++ ")$".
Definition reWildcard : jsstring := "\*".
Definition reLeadingOrigin : jsstring := "^(" +++ reOrigin +++ ")?".
Definition reShAllowed : jsstring :=
  "^(pk\(|pkh\(|wpkh\(|combo\(|multi\(|sortedmulti\(|multi_a\(|sortedmulti_a\()".
Definition reWhiteSpaces : jsstring := "\s+".
Definition reBareNumber : jsstring := "(?<![<])\b\d+\b(?![>])".
Definition reAngles : jsstring := "[<>]".

(** ** Numbers

    A JavaScript number, as far as the source looks at one: whether it is
    an integer, how it compares with an integer constant, and how an
    integer prints.  A number is a double: [Int z] stands for one only
    when [z] is a double, which every integer of magnitude below 2^53 is;
    [Number] yields doubles only, through [round_double]. *)

Inductive number : Type :=
| Int (z : Z)              (* a finite value that is an integer *)
| Fraction (floor : Z)     (* a finite value strictly between floor and floor + 1 *)
| NaN
| Infinity (negative : bool).

Definition Number_isInteger (n : number) : bool :=
  match n with
  | Int _ => true
  | _ => false
  end.

(** [n < c] and [n >= c] for an integer constant [c]. *)
Definition number_ltb (n : number) (c : Z) : bool :=
  match n with
  | Int z => (z <? c)%Z
  | Fraction f => (f <? c)%Z
  | NaN => false
  | Infinity negative => negative
  end.

Definition number_geb (n : number) (c : Z) : bool :=
  match n with
  | Int z => (c <=? z)%Z
  | Fraction f => (c <=? f)%Z
  | NaN => false
  | Infinity negative => negb negative
  end.

(** The decimal digits of a natural number. *)
Definition decimal (n : N) : jsstring :=
  str (NilEmpty.string_of_uint (N.to_uint n)).

(** The value of a sequence of decimal digits. *)
Definition decimal_value (s : jsstring) : Z :=
  fold_left (fun acc c => (10 * acc + Z.of_nat (digit_value c))%Z) s 0%Z.

(** The double nearest to a non-negative integer, ties to even: exact below
    2^53, an infinity from 2^1024 - 2^970 on. *)
Definition round_double (v : Z) : number :=
  if (v <? 2 ^ 53)%Z then Int v
  else
    let e := (Z.log2 v - 52)%Z in
    let q := Z.shiftr v e in
    let r := (v - Z.shiftl q e)%Z in
    let half := (2 ^ (e - 1))%Z in
    let q' := if (half <? r)%Z || ((r =? half)%Z && Z.odd q) then (q + 1)%Z else q in
    let w := (q' * 2 ^ e)%Z in
    if (2 ^ 1024 <=? w)%Z then Infinity false else Int w.

Definition all_digits (s : jsstring) : bool :=
  match s with
  | [] => false
  | _ => forallb is_digit s
  end.

(** ** Buffers *)

Definition hex_value (c : ascii) : option N :=
  let n := N_of_ascii c in
  if in_range c ("0"%char, "9"%char) then Some (n - 48)%N
  else if in_range c ("a"%char, "f"%char) then Some (n - 87)%N
  else if in_range c ("A"%char, "F"%char) then Some (n - 55)%N
  else None.

(** [Buffer.from(s, 'hex')]: decoding stops at the first pair that is not
    two hexadecimal digits. *)
Fixpoint Buffer_from_hex (s : jsstring) : bytes :=
  match s with
  | a :: b :: t =>
      match hex_value a, hex_value b with
      | Some x, Some y => byte_of_ascii (ascii_of_N (16 * x + y)) :: Buffer_from_hex t
      | _, _ => []
      end
  | _ => []
  end.

Definition hex_digit (n : N) : ascii :=
  if (n <? 10)%N then ascii_of_N (48 + n) else ascii_of_N (87 + n).

(** [buffer.toString('hex')] *)
Definition Buffer_toString_hex (b : bytes) : jsstring :=
  flat_map (fun x => let n := Byte.to_N x in [hex_digit (n / 16); hex_digit (n mod 16)]) b.

(** An element of a decompiled script: an opcode or pushed data. *)
Inductive chunk : Type :=
| Op (code : Z)
| Push (data : bytes).

(** ** Errors

    Every [throw] of the source is a constructor that carries what the
    message interpolates; the names are those of the specification where it
    names the error.  An exception out of a library the source calls is
    [InvalidWif], [InvalidExtendedKey] or [LibraryError] with the name of
    the call. *)

Inductive Error : Type :=
| MissingChecksum (expression : jsstring)
| InvalidChecksum (expression : jsstring)
| InvalidIndex (index : option number)
| PathElementOverflow
| BadKeyExpression (keyExpression : jsstring)
| InvalidPubKey
| InvalidWif
| InvalidExtendedKey
| XpubNotMatched
| XprvNotMatched
| PathNotExtracted
| NoPubKey (keyExpression : jsstring)
| CouldNotDecompile (script : bytes)
| DuplicateKey (miniscript : jsstring)
| UnsaneMiniscript (bareM : jsstring)
| InvalidKeyMap (key : jsstring)
| Unsatisfiable (miniscript : jsstring)
| InvalidAddress (address : jsstring)
| InvalidExpression (expression : jsstring)
| KeyExpressionNotExtracted
| MiniscriptNotFound (isolatedExpression : jsstring)
| MiniscriptDisallowedInP2SH
| ScriptTooLarge (size limit : nat)
| P2SHScriptTooLarge (size limit : nat)
| TooManyOps (nonPushOnlyOps limit : nat)
| ParseFailure (expression : jsstring)
| NoAddress
| NoOutput
| LibraryError (call : string).

Inductive result (A : Type) : Type :=
| OK (a : A)
| Throw (e : Error).
Arguments OK {A} a.
Arguments Throw {A} e.

Definition bind {A B : Type} (c : result A) (k : A -> result B) : result B :=
  match c with
  | OK a => k a
  | Throw e => Throw e
  end.

Notation "x <- c ;; k" := (bind c (fun x => k))
  (at level 61, c at next level, right associativity).
Notation "' pat <- c ;; k" := (bind c (fun x => match x with pat => k end))
  (at level 61, pat pattern, c at next level, right associativity).

(** The value of a library call that throws instead of returning. *)
Definition orThrow {A : Type} (e : Error) (o : option A) : result A :=
  match o with
  | Some a => OK a
  | None => Throw e
  end.

(** A loop whose body may throw. *)
Fixpoint forEach {A : Type} (l : list A) (body : A -> result unit) : result unit :=
  match l with
  | [] => OK tt
  | a :: l' => _ <- body a ;; forEach l' body
  end.

(** [array.reduce(f, init)] with a callback that may throw. *)
Fixpoint reduce {A B : Type} (f : B -> A -> result B) (l : list A) (acc : B) : result B :=
  match l with
  | [] => OK acc
  | a :: l' => acc' <- f acc a ;; reduce f l' acc'
  end.

(** [s.replace(/.../g, callback)]: the callback, which may throw and may
    change a state of its own, is called on every match from left to
    right. *)
Fixpoint callbacks {S : Type} (f : jsstring -> S -> result (jsstring * S))
  (ms : list match_result) (st : S) : result (list (match_result * jsstring) * S) :=
  match ms with
  | [] => OK ([], st)
  | m :: ms' =>
      '(rep, st1) <- f (matched m) st ;;
      '(reps, st2) <- callbacks f ms' st1 ;;
      OK ((m, rep) :: reps, st2)
  end.

Definition String_replace_callback {S : Type} (s : jsstring) (source : jsstring)
  (f : jsstring -> S -> result (jsstring * S)) (st : S) : result (jsstring * S) :=
  '(reps, st') <- callbacks f (String_matchAll s source) st ;;
  OK (splice s 0 reps, st').

(** ** Payments

    The [Payment] interface of bitcoinjs-lib: the fields the source sets or
    reads. *)

#[warnings="-register-all"]
Inductive Payment (Network : Type) : Type := mkPayment {
  network : option Network;
  address : option jsstring;
  output : option bytes;
  pubkey : option bytes;
  redeem : option (Payment Network)
}.
Arguments mkPayment {Network}.
Arguments network {Network}.
Arguments address {Network}.
Arguments output {Network}.
Arguments pubkey {Network}.
Arguments redeem {Network}.

(** The private fields of a [Descriptor]. *)
Record Descriptor (Network : Type) : Type := mkDescriptor {
  payment : Payment Network;
  satAsm : option jsstring
}.
Arguments mkDescriptor {Network}.
Arguments payment {Network}.
Arguments satAsm {Network}.

(** ** The services the factory consumes

    The elliptic-curve provider handed to [DescriptorsFactory], the
    libraries the source imports, the two modules of the repository that
    are not among the sources, and the corners of JavaScript left
    unspecified here.  A call that may throw returns an option. *)

Class Services : Type := {
  Network : Type;
  Node : Type;
  networks_bitcoin : Network;
  (* ecc, bip32, ecpair *)
  ecc_isPoint : bytes -> bool;
  ecpair_fromWIF : jsstring -> Network -> option bytes;
  bip32_fromBase58 : jsstring -> Network -> option Node;
  node_derivePath : Node -> jsstring -> option Node;
  node_publicKey : Node -> bytes;
  (* @bitcoinerlab/miniscript: the assembly and whether issane is true;
     nonMalleableSats, when it is an array, as the asm of its elements *)
  compileMiniscript : jsstring -> option (jsstring * bool);
  satisfier : jsstring -> list jsstring -> option (option (list jsstring));
  (* bitcoinjs-lib *)
  bscript_fromASM : jsstring -> option bytes;
  bscript_decompile : bytes -> option (list chunk);
  crypto_hash160 : bytes -> bytes;
  address_toOutputScript : jsstring -> Network -> option bytes;
  p2sh : Payment Network -> option (Payment Network);
  p2wpkh : Payment Network -> option (Payment Network);
  p2pkh : Payment Network -> option (Payment Network);
  p2pk : Payment Network -> option (Payment Network);
  p2wsh : Payment Network -> option (Payment Network);
  (* ./checksum and ./numberEncodeAsm *)
  DescriptorChecksum : jsstring -> jsstring;
  numberEncodeAsm : number -> option jsstring;
  (* Number(s) for a text that is not a sequence of decimal digits;
     toString of a finite number that is not an integer of magnitude below
     2^53 (the shortest digits that read back as the same double, padded
     with zeros, exponent notation from 10^21 on);
     pushed data compared with a number by the greater-than operator *)
  Number_other : jsstring -> number;
  Number_toString_other : number -> jsstring;
  chunk_data_gt : bytes -> Z -> bool
}.

(** [bscript.OPS['OP_16']] *)
Definition OP_16 : Z := 0x60.

Definition MAX_SCRIPT_ELEMENT_SIZE : nat := 520.
Definition MAX_STANDARD_P2WSH_SCRIPT_SIZE : nat := 3600.
Definition MAX_OPS_PER_SCRIPT : nat := 201.

(** ** The functions of the source *)

Section Factory.

Context {Sv : Services}.

(** [Number(s)] *)
Definition Number (s : jsstring) : number :=
  if all_digits s then round_double (decimal_value s) else Number_other s.

(** [n.toString()]: an integer of magnitude below 2^53 prints as its
    decimal digits; 2^64, for one, does not (18446744073709552000). *)
Definition Number_toString (n : number) : jsstring :=
  match n with
  | Int z =>
      if (Z.abs z <? 2 ^ 53)%Z
      then (if (z <? 0)%Z then "-" +++ decimal (Z.to_N (- z)) else decimal (Z.to_N z))
      else Number_toString_other n
  | Fraction _ => Number_toString_other n
  | NaN => "NaN"
  | Infinity negative => if negative then "-Infinity" else "Infinity"
  end.

(** The [index] argument may be absent: undefined is not an integer and is
    not below zero; its text is not asked for. *)
Definition isInteger (index : option number) : bool :=
  match index with
  | Some n => Number_isInteger n
  | None => false
  end.

Definition below_zero (index : option number) : bool :=
  match index with
  | Some n => number_ltb n 0
  | None => false
  end.

Definition toString (index : option number) : jsstring :=
  match index with
  | Some n => Number_toString n
  | None => []
  end.

Definition is_null {A : Type} (o : option A) : bool :=
  match o with
  | Some _ => false
  | None => true
  end.

(** Returns a bare descriptor without checksum and particularized for a
    certain index (if desc was a range descriptor). *)
Definition isolate (expression : jsstring) (checksumRequired : bool)
  (index : option number) : result jsstring :=
  let mChecksum := String_match expression reChecksumAtEnd in
  if is_null mChecksum && checksumRequired then Throw (MissingChecksum expression)
  else
    isolatedExpression <-
      match mChecksum with
      | Some m =>
          let checksum := slice_from (matched m) 1 in
          let isolatedExpression :=
            substring0 expression (length expression - length (matched m)) in
          if negb (jsstring_eqb checksum (DescriptorChecksum isolatedExpression))
          then Throw (InvalidChecksum expression)
          else OK isolatedExpression
      | None => OK expression
      end ;;
    let mWildcard := String_match_global isolatedExpression reWildcard in
    match mWildcard with
    | Some ws =>
        if (0 <? length ws)%nat then
          if negb (isInteger index) || below_zero index
          then Throw (InvalidIndex index)
          else OK (replaceAll isolatedExpression "*" (toString index))
        else OK isolatedExpression
    | None => OK isolatedExpression
    end.

(** [path] is a string by its type: the [typeof] test of the source cannot
    fail.  An exception out of [node.derivePath] is [InvalidExtendedKey]. *)
Definition derivePath (node : Node) (path : jsstring) : result Node :=
  let parsedPath := slice_from (replaceAll (replaceAll path "H" "'") "h" "'") 1 in
  let splitPath := split parsedPath "/" in
  _ <- forEach splitPath (fun element =>
         let unhardened :=
           if endsWith element "'" then slice_drop_last element 1 else element in
         if negb (Number_isInteger (Number unhardened))
            || number_geb (Number unhardened) 0x80000000
         then Throw PathElementOverflow
         else OK tt) ;;
  orThrow InvalidExtendedKey (node_derivePath node parsedPath).

Definition default {A : Type} (o : option A) (d : A) : A :=
  match o with
  | Some a => a
  | None => d
  end.

(** [!s] for a string that may be undefined. *)
Definition falsy (o : option jsstring) : bool :=
  match o with
  | Some (_ :: _) => false
  | _ => true
  end.

(** Takes a key expression (xpub, xprv, pubkey or wif) and returns a pubkey
    in binary format. *)
Definition keyExpression2PubKey (keyExpression : jsstring)
  (network : option Network) (isSegwit : option bool) : result bytes :=
  let network := default network networks_bitcoin in
  let isSegwit := default isSegwit true in
  let keyExpressions := String_match keyExpression reKeyExp in
  if match keyExpressions with
     | None => true
     | Some m => negb (jsstring_eqb (matched m) keyExpression)
     end
  then Throw (BadKeyExpression keyExpression)
  else
    let actualKey := String_replace keyExpression reLeadingOrigin "" in
    match String_match actualKey (anchorStartAndEnd rePubKey) with
    | Some mPubKey =>
        let pubkey := Buffer_from_hex (matched mPubKey) in
        if negb (ecc_isPoint pubkey)
           || (isSegwit && negb (length pubkey =? 33)%nat)
           || negb ((length pubkey =? 33)%nat || (length pubkey =? 65)%nat)
        then Throw InvalidPubKey
        else OK pubkey
    | None =>
    match String_match actualKey (anchorStartAndEnd reWIF) with
    | Some mWIF => orThrow InvalidWif (ecpair_fromWIF (matched mWIF) network)
    | None =>
    match String_match actualKey (anchorStartAndEnd reXpubKey) with
    | Some mXpubKey =>
        let xPubKey := matched mXpubKey in
        let xPub := option_map matched (String_match xPubKey reXpub) in
        if falsy xPub then Throw XpubNotMatched
        else
          let xPub := default xPub [] in
          let mPath := String_match xPubKey rePath in
          match mPath with
          | Some _ =>
              let path := option_map matched (String_match xPubKey rePath) in
              if falsy path then Throw PathNotExtracted
              else
                node <- orThrow InvalidExtendedKey (bip32_fromBase58 xPub network) ;;
                derived <- derivePath node (default path []) ;;
                OK (node_publicKey derived)
          | None =>
              node <- orThrow InvalidExtendedKey (bip32_fromBase58 xPub network) ;;
              OK (node_publicKey node)
          end
    | None =>
    match String_match actualKey (anchorStartAndEnd reXprvKey) with
    | Some mXprvKey =>
        let xPrvKey := matched mXprvKey in
        let xPrv := option_map matched (String_match xPrvKey reXprv) in
        if falsy xPrv then Throw XprvNotMatched
        else
          let xPrv := default xPrv [] in
          let mPath := String_match xPrvKey rePath in
          match mPath with
          | Some _ =>
              let path := option_map matched (String_match xPrvKey rePath) in
              if falsy path then Throw PathNotExtracted
              else
                node <- orThrow InvalidExtendedKey (bip32_fromBase58 xPrv network) ;;
                derived <- derivePath node (default path []) ;;
                OK (node_publicKey derived)
          | None =>
              node <- orThrow InvalidExtendedKey (bip32_fromBase58 xPrv network) ;;
              OK (node_publicKey node)
          end
    | None => Throw (NoPubKey keyExpression)
    end end end end.

(** [op > bscript.OPS['OP_16']] on an element of a decompiled script. *)
Definition above_OP_16 (op : chunk) : bool :=
  match op with
  | Op code => (OP_16 <? code)%Z
  | Push data => chunk_data_gt data OP_16
  end.

Definition countNonPushOnlyOPs (script : bytes) : result nat :=
  match bscript_decompile script with
  | None => Throw (CouldNotDecompile script)
  | Some decompile => OK (length (filter above_OP_16 decompile))
  end.

(** A JavaScript object with string keys and string values, its properties
    in insertion order. *)
Definition object := list (jsstring * jsstring).

Fixpoint object_set (o : object) (key value : jsstring) : object :=
  match o with
  | [] => [(key, value)]
  | (k, v) :: o' =>
      if jsstring_eqb k key then (k, value) :: o' else (k, v) :: object_set o' key value
  end.

Fixpoint object_get (o : object) (key : jsstring) : option jsstring :=
  match o with
  | [] => None
  | (k, v) :: o' => if jsstring_eqb k key then Some v else object_get o' key
  end.

Definition Object_keys (o : object) : list jsstring := map fst o.
Definition Object_values (o : object) : list jsstring := map snd o.

Definition jsstring_eq_dec : forall a b : jsstring, {a = b} + {a <> b} :=
  list_eq_dec ascii_dec.

(** [new Set(l).size] *)
Definition Set_size (l : list jsstring) : nat := length (nodup jsstring_eq_dec l).

(** A string that may be undefined, inside a template literal. *)
Definition interpolate (o : option jsstring) : jsstring :=
  match o with
  | Some s => s
  | None => "undefined"
  end.

(** The callback of the key substitution: a fresh variable [@n] for the key
    expression, its pubkey recorded in [keyMap]. *)
Definition assignKey (network : Network) (isSegwit : bool)
  (keyExpression : jsstring) (keyMap : object) : result (jsstring * object) :=
  let key := "@" +++ decimal (N.of_nat (length (Object_keys keyMap))) in
  pubkey <- keyExpression2PubKey keyExpression (Some network) (Some isSegwit) ;;
  OK (key, object_set keyMap key (Buffer_toString_hex pubkey)).

Definition solveMiniscript (miniscript : jsstring) (isSegwit : option bool)
  (unknowns : option (list jsstring)) (network : option Network)
  : result (bytes * jsstring) :=
  let isSegwit := default isSegwit true in
  let unknowns := default unknowns [] in
  let network := default network networks_bitcoin in
  '(bareM, keyMap) <-
    String_replace_callback miniscript reKeyExp (assignKey network isSegwit) [] ;;
  let pubKeys := Object_values keyMap in
  if negb (Set_size pubKeys =? length pubKeys)%nat then Throw (DuplicateKey miniscript)
  else
    '(compiled_asm, issane) <- orThrow (LibraryError "compileMiniscript")
                                 (compileMiniscript bareM) ;;
    if negb issane then Throw (UnsaneMiniscript bareM)
    else
      asm <- reduce (fun accAsm key =>
               let pubKey := object_get keyMap key in
               if falsy pubKey then Throw (InvalidKeyMap key)
               else
                 OK (replaceAll
                       (replaceAll accAsm ("<" +++ key +++ ">")
                          ("<" +++ interpolate (object_get keyMap key) +++ ">"))
                       ("<HASH160(" +++ key +++ ")>")
                       ("<" +++ Buffer_toString_hex
                                  (crypto_hash160 (Buffer_from_hex (default pubKey [])))
                            +++ ">")))
             (Object_keys keyMap) compiled_asm ;;
      '(encoded, _) <-
        String_replace_callback
          (String_replace_global (trim asm) reWhiteSpaces (fun _ => " "))
          reBareNumber
          (fun num (_ : unit) =>
             enc <- orThrow (LibraryError "numberEncodeAsm") (numberEncodeAsm (Number num)) ;;
             OK (enc, tt))
          tt ;;
      let parsedAsm := String_replace_global encoded reAngles (fun _ => "") in
      nonMalleableSats <- orThrow (LibraryError "satisfier") (satisfier bareM unknowns) ;;
      match nonMalleableSats with
      | Some (sat0 :: _) =>
          satAsm <- reduce (fun accAsm key =>
                      let pubKey := object_get keyMap key in
                      if falsy pubKey then Throw (InvalidKeyMap key)
                      else
                        OK (replaceAll
                              (replaceAll accAsm ("<" +++ key +++ ">")
                                 ("<" +++ interpolate (object_get keyMap key) +++ ">"))
                              ("<sig(" +++ key +++ ")>")
                              ("<sig(" +++ interpolate (object_get keyMap key) +++ ")>")))
                    (Object_keys keyMap) sat0 ;;
          lockingScript <- orThrow (LibraryError "fromASM") (bscript_fromASM parsedAsm) ;;
          OK (lockingScript, satAsm)
      | _ => Throw (Unsatisfiable miniscript)
      end.

Definition blank : Payment Network := mkPayment None None None None None.

(** [{ pubkey, network }] and [{ output: script, network }] *)
Definition ofPubkey (pubkey : bytes) (network : Network) : Payment Network :=
  mkPayment (Some network) None None (Some pubkey) None.
Definition ofOutput (script : bytes) (network : Network) : Payment Network :=
  mkPayment (Some network) None (Some script) None None.
(** [{ redeem, network }] *)
Definition ofRedeem (redeem : Payment Network) (network : Network) : Payment Network :=
  mkPayment (Some network) None None None (Some redeem).

Definition capture1 (s source : jsstring) : option jsstring :=
  match String_match s source with
  | Some m => capture m 1
  | None => None
  end.

Definition matches (s source : jsstring) : bool :=
  negb (is_null (String_match s source)).

(** The constructor of [Descriptor].  [expression] is a string by its type.
    The constructor also logs the satisfaction assembly to the console,
    which is left out. *)
Definition Descriptor_new (expression : jsstring) (index : option number)
  (checksumRequired allowMiniscriptInP2SH : option bool)
  (unknowns : option (list jsstring)) (network : option Network)
  : result (Descriptor Network) :=
  let checksumRequired := default checksumRequired false in
  let allowMiniscriptInP2SH := default allowMiniscriptInP2SH false in
  let unknowns := default unknowns [] in
  let network := default network networks_bitcoin in
  isolatedExpression <- isolate expression checksumRequired index ;;
  let matchedAddress := capture1 isolatedExpression reAddrAnchored in
  let keyExpression := option_map matched (String_match isolatedExpression reKeyExp) in
  (* addr(ADDR) *)
  if negb (falsy matchedAddress) then
    let matchedAddress := default matchedAddress [] in
    match address_toOutputScript matchedAddress network with
    | None => Throw (InvalidAddress matchedAddress)
    | Some _ =>
        OK (mkDescriptor (mkPayment None (Some matchedAddress) None None None) None)
    end
  (* pk(KEY) *)
  else if matches isolatedExpression rePkAnchored then
    if negb (jsstring_eqb isolatedExpression ("pk(" +++ interpolate keyExpression +++ ")"))
    then Throw (InvalidExpression expression)
    else if falsy keyExpression then Throw KeyExpressionNotExtracted
    else
      pubkey <- keyExpression2PubKey (default keyExpression []) (Some network) (Some false) ;;
      payment <- orThrow (LibraryError "p2pk") (p2pk (ofPubkey pubkey network)) ;;
      OK (mkDescriptor payment None)
  (* pkh(KEY) - legacy *)
  else if matches isolatedExpression rePkhAnchored then
    if negb (jsstring_eqb isolatedExpression ("pkh(" +++ interpolate keyExpression +++ ")"))
    then Throw (InvalidExpression expression)
    else if falsy keyExpression then Throw KeyExpressionNotExtracted
    else
      pubkey <- keyExpression2PubKey (default keyExpression []) (Some network) (Some false) ;;
      payment <- orThrow (LibraryError "p2pkh") (p2pkh (ofPubkey pubkey network)) ;;
      OK (mkDescriptor payment None)
  (* sh(wpkh(KEY)) - nested segwit *)
  else if matches isolatedExpression reShWpkhAnchored then
    if negb (jsstring_eqb isolatedExpression
               ("sh(wpkh(" +++ interpolate keyExpression +++ "))"))
    then Throw (InvalidExpression expression)
    else if falsy keyExpression then Throw KeyExpressionNotExtracted
    else
      pubkey <- keyExpression2PubKey (default keyExpression []) (Some network) None ;;
      inner <- orThrow (LibraryError "p2wpkh") (p2wpkh (ofPubkey pubkey network)) ;;
      payment <- orThrow (LibraryError "p2sh") (p2sh (ofRedeem inner network)) ;;
      OK (mkDescriptor payment None)
  (* wpkh(KEY) - native segwit *)
  else if matches isolatedExpression reWpkhAnchored then
    if negb (jsstring_eqb isolatedExpression ("wpkh(" +++ interpolate keyExpression +++ ")"))
    then Throw (InvalidExpression expression)
    else if falsy keyExpression then Throw KeyExpressionNotExtracted
    else
      pubkey <- keyExpression2PubKey (default keyExpression []) (Some network) None ;;
      payment <- orThrow (LibraryError "p2wpkh") (p2wpkh (ofPubkey pubkey network)) ;;
      OK (mkDescriptor payment None)
  (* sh(wsh(miniscript)) *)
  else if matches isolatedExpression reShWshMiniscriptAnchored then
    let miniscript := capture1 isolatedExpression reShWshMiniscriptAnchored in
    if falsy miniscript then Throw (MiniscriptNotFound isolatedExpression)
    else
      '(script, satAsm) <-
        solveMiniscript (default miniscript []) None (Some unknowns) (Some network) ;;
      if (MAX_STANDARD_P2WSH_SCRIPT_SIZE <? length script)%nat
      then Throw (ScriptTooLarge (length script) MAX_STANDARD_P2WSH_SCRIPT_SIZE)
      else
        nonPushOnlyOps <- countNonPushOnlyOPs script ;;
        if (MAX_OPS_PER_SCRIPT <? nonPushOnlyOps)%nat
        then Throw (TooManyOps nonPushOnlyOps MAX_OPS_PER_SCRIPT)
        else
          inner <- orThrow (LibraryError "p2wsh")
                     (p2wsh (ofRedeem (ofOutput script network) network)) ;;
          payment <- orThrow (LibraryError "p2sh") (p2sh (ofRedeem inner network)) ;;
          OK (mkDescriptor payment (Some satAsm))
  (* sh(miniscript) *)
  else if matches isolatedExpression reShMiniscriptAnchored then
    let miniscript := capture1 isolatedExpression reShMiniscriptAnchored in
    if falsy miniscript then Throw (MiniscriptNotFound isolatedExpression)
    else if negb allowMiniscriptInP2SH
            && negb (String_search (default miniscript []) reShAllowed =? 0)%Z
    then Throw MiniscriptDisallowedInP2SH
    else
      '(script, satAsm) <-
        solveMiniscript (default miniscript []) (Some false) (Some unknowns) (Some network) ;;
      if (MAX_SCRIPT_ELEMENT_SIZE <? length script)%nat
      then Throw (P2SHScriptTooLarge (length script) MAX_SCRIPT_ELEMENT_SIZE)
      else
        nonPushOnlyOps <- countNonPushOnlyOPs script ;;
        if (MAX_OPS_PER_SCRIPT <? nonPushOnlyOps)%nat
        then Throw (TooManyOps nonPushOnlyOps MAX_OPS_PER_SCRIPT)
        else
          payment <- orThrow (LibraryError "p2sh")
                       (p2sh (ofRedeem (ofOutput script network) network)) ;;
          OK (mkDescriptor payment (Some satAsm))
  (* wsh(miniscript) *)
  else if matches isolatedExpression reWshMiniscriptAnchored then
    let miniscript := capture1 isolatedExpression reWshMiniscriptAnchored in
    if falsy miniscript then Throw (MiniscriptNotFound isolatedExpression)
    else
      '(script, satAsm) <-
        solveMiniscript (default miniscript []) None (Some unknowns) (Some network) ;;
      if (MAX_STANDARD_P2WSH_SCRIPT_SIZE <? length script)%nat
      then Throw (ScriptTooLarge (length script) MAX_STANDARD_P2WSH_SCRIPT_SIZE)
      else
        nonPushOnlyOps <- countNonPushOnlyOPs script ;;
        if (MAX_OPS_PER_SCRIPT <? nonPushOnlyOps)%nat
        then Throw (TooManyOps nonPushOnlyOps MAX_OPS_PER_SCRIPT)
        else
          payment <- orThrow (LibraryError "p2wsh")
                       (p2wsh (ofRedeem (ofOutput script network) network)) ;;
          OK (mkDescriptor payment (Some satAsm))
  else Throw (ParseFailure expression).

Definition getPayment (d : Descriptor Network) : Payment Network := payment d.

Definition getAddress (d : Descriptor Network) : result jsstring :=
  if falsy (address (payment d)) then Throw NoAddress
  else OK (default (address (payment d)) []).

Definition getScriptPubKey (d : Descriptor Network) : result bytes :=
  match output (payment d) with
  | None => Throw NoOutput
  | Some script => OK script
  end.

(** The static methods. *)
Definition Descriptor_checksum (expression : jsstring) : jsstring :=
  DescriptorChecksum expression.

Definition Descriptor_keyExpression2PubKey (keyExpression : jsstring)
  (network : option Network) (isSegwit : option bool) : result bytes :=
  let network := default network networks_bitcoin in
  let isSegwit := default isSegwit true in
  keyExpression2PubKey keyExpression (Some network) (Some isSegwit).

End Factory.

(** ** The published descriptor checksum and stand-in services

    The theorems below hold for every instance of [Services].  The
    instance [reference] serves the concrete runs: it has the published
    checksum, and stand-ins for the libraries that are just defined enough
    to run a descriptor through every step. *)

Definition INPUT_CHARSET : jsstring :=
  "0123456789()[],'/*abcdefgh@:$%{}" +++
  "IJKLMNOPQRSTUVWXYZ&+-.;<=>?!^_|~" +++
  "ijklmnopqrstuvwxyzABCDEFGH`#" +++ ["034"%char] +++ "\ ".

Definition PolyMod (c val : Z) : Z :=
  let c0 := Z.shiftr c 35 in
  let c := Z.lxor (Z.shiftl (Z.land c 0x7ffffffff) 5) val in
  let c := if Z.testbit c0 0 then Z.lxor c 0xf5dee51989 else c in
  let c := if Z.testbit c0 1 then Z.lxor c 0xa9fdca3312 else c in
  let c := if Z.testbit c0 2 then Z.lxor c 0x1bab10e32d else c in
  let c := if Z.testbit c0 3 then Z.lxor c 0x3706b1677a else c in
  let c := if Z.testbit c0 4 then Z.lxor c 0x644d626ffd else c in
  c.

Fixpoint indexOf (s : jsstring) (ch : ascii) : option nat :=
  match s with
  | [] => None
  | c :: t => if ascii_eqb c ch then Some 0 else option_map S (indexOf t ch)
  end.

(** The state of the checksum loop: the polynomial state, the class of the
    characters read since the last group of three, and their count. *)
Fixpoint checksum_loop (span : jsstring) (c cls : Z) (clscount : nat) : option Z :=
  match span with
  | [] => Some (if (0 <? clscount)%nat then PolyMod c cls else c)
  | ch :: span' =>
      match indexOf INPUT_CHARSET ch with
      | None => None
      | Some pos =>
          let pos := Z.of_nat pos in
          let c := PolyMod c (Z.land pos 31) in
          let cls := (cls * 3 + Z.shiftr pos 5)%Z in
          if (S clscount =? 3)%nat
          then checksum_loop span' (PolyMod c cls) 0%Z 0
          else checksum_loop span' c cls (S clscount)
      end
  end.

(** Modelled from the spec: [DescriptorChecksum], the function of the
    checksum module ([src/checksum.ts]), which is not among the sources:
    the published descriptor checksum, a polynomial state iterated over the
    characters of the descriptor and 40 bits packed as 8 symbols of
    [CHECKSUM_CHARSET].  A character outside the input character set gives
    the empty text. *)
Definition published_checksum (span : jsstring) : jsstring :=
  match checksum_loop span 1%Z 0%Z 0 with
  | None => []
  | Some c =>
      let c := Nat.iter 8 (fun c => PolyMod c 0) c in
      let c := Z.lxor c 1 in
      map (fun j => nth (Z.to_nat (Z.land (Z.shiftr c (5 * (7 - Z.of_nat j))) 31))
                        CHECKSUM_CHARSET "000"%char)
          (seq 0 8)
  end.

Definition reference_pubkey (b : bytes) : bool :=
  match b with
  | x :: _ => (2 <=? Byte.to_N x)%N && (Byte.to_N x <=? 4)%N
  | [] => false
  end.

(** The stand-in compiler knows [pk(@0)] and the stand-in script encoder
    pushes one key and appends OP_CHECKSIG. *)
Definition reference_compile (bareM : jsstring) : option (jsstring * bool) :=
  if jsstring_eqb bareM "pk(@0)" then Some (str "<@0> OP_CHECKSIG", true)
  else Some (bareM, false).

Definition reference_fromASM (asm : jsstring) : option bytes :=
  match split asm " " with
  | [key; _] => Some (Byte.x21 :: Buffer_from_hex key ++ [Byte.xac])
  | _ => None
  end.

Definition reference_decompile (script : bytes) : option (list chunk) :=
  match script with
  | _ :: data => Some [Push (removelast data); Op 172]
  | [] => None
  end.

Definition reference_payment (a : Payment unit) : option (Payment unit) :=
  Some (mkPayment (network a) (Some (str "address")) (Some []) (pubkey a) (redeem a)).

Definition reference_p2pk (a : Payment unit) : option (Payment unit) :=
  Some (mkPayment (network a) None (Some (default (pubkey a) [] ++ [Byte.xac]))
          (pubkey a) None).

#[export] Instance reference : Services := {|
  Network := unit;
  Node := jsstring * jsstring;
  networks_bitcoin := tt;
  ecc_isPoint := reference_pubkey;
  ecpair_fromWIF := fun _ _ => None;
  bip32_fromBase58 := fun s _ => Some (s, []);
  node_derivePath := fun n p => Some (fst n, snd n ++ p);
  node_publicKey := fun _ => [Byte.x02];
  compileMiniscript := reference_compile;
  satisfier := fun _ _ => Some (Some [str "<sig(@0)>"]);
  bscript_fromASM := reference_fromASM;
  bscript_decompile := reference_decompile;
  crypto_hash160 := fun b => firstn 20 b;
  address_toOutputScript := fun a _ => if startsWith a "bc1" then Some [Byte.x00] else None;
  p2sh := reference_payment;
  p2wpkh := reference_payment;
  p2pkh := reference_payment;
  p2pk := reference_p2pk;
  p2wsh := reference_payment;
  DescriptorChecksum := published_checksum;
  numberEncodeAsm := fun n => match n with Int z => Some (decimal (Z.to_N z)) | _ => None end;
  Number_other := fun _ => NaN;
  Number_toString_other := fun _ => [];
  chunk_data_gt := fun _ _ => false
|}.

(** ** Notions for the statements *)

Definition checksum_symbols : list (ascii * ascii) := map (fun c => (c, c)) CHECKSUM_CHARSET.
Definition checksum_symbol (c : ascii) : bool := in_class false checksum_symbols c.

(** A checksum token: [#] and eight checksum symbols. *)
Definition is_token (t : jsstring) : bool :=
  match t with
  | c :: cs => ascii_eqb "#"%char c && (length cs =? 8)%nat && forallb checksum_symbol cs
  | [] => false
  end.

Fixpoint advance (n : nat) (x : mstate) : mstate :=
  match n with
  | O => x
  | S n' =>
      match rest x with
      | c :: t => advance n' (MState (Some c) t (caps x))
      | [] => x
      end
  end.

(** The first suffix that is a checksum token. *)
Fixpoint find_token (s : jsstring) : option jsstring :=
  if is_token s then Some s
  else match s with
       | _ :: t => find_token t
       | [] => None
       end.

(** Whether a string ends with a checksum token. *)
Definition checksum_tail (s : jsstring) : bool :=
  is_token (skipn (length s - 9) s).

Definition has_wildcard (s : jsstring) : bool := existsb (ascii_eqb "*"%char) s.

(** The expression without its checksum token, if it ends with one. *)
Definition strip_checksum (s : jsstring) : jsstring :=
  if checksum_tail s then firstn (length s - 9) s else s.

(** What [isolate] does once the checksum is settled. *)
Definition particularize {Sv : Services} (bare : jsstring) (index : option number)
  : result jsstring :=
  if has_wildcard bare then
    if negb (isInteger index) || below_zero index
    then Throw (InvalidIndex index)
    else OK (replaceAll bare "*" (toString index))
  else OK bare.

Definition same_error (e1 e2 : Error) : Prop :=
  match e1, e2 with
  | MissingChecksum _, MissingChecksum _ => True
  | InvalidChecksum _, InvalidChecksum _ => True
  | InvalidExpression _, InvalidExpression _ => True
  | ParseFailure _, ParseFailure _ => True
  | _, _ => e1 = e2
  end.

(** The same value, or the same error up to the expression its message
    names. *)
Definition same_outcome {A : Type} (r1 r2 : result A) : Prop :=
  match r1, r2 with
  | OK a, OK b => a = b
  | Throw e1, Throw e2 => same_error e1 e2
  | _, _ => False
  end.

(** A result that is not the invalid-index error. *)
Definition not_index_error {A : Type} (r : result A) : Prop :=
  forall x, r <> Throw (InvalidIndex x).

Definition hex_ranges : list (ascii * ascii) :=
  [("0", "9"); ("a", "f"); ("A", "F")]%char.
Definition is_hex (c : ascii) : bool := in_class false hex_ranges c.

Definition rePubKeyAnchored_ast : regex := Eval vm_compute in compile (anchorStartAndEnd rePubKey).
Definition reKeyExp_ast : regex := Eval vm_compute in compile reKeyExp.
Definition reLeadingOrigin_ast : regex := Eval vm_compute in compile reLeadingOrigin.

(** A raw public key in hexadecimal: 33 bytes behind 02 or 03, or 65 behind
    04. *)
Inductive RawPubKey : jsstring -> nat -> Prop :=
| Compressed c h :
    c = "2"%char \/ c = "3"%char -> length h = 64 -> forallb is_hex h = true ->
    RawPubKey ("0"%char :: c :: h) 33
| Uncompressed h :
    length h = 128 -> forallb is_hex h = true ->
    RawPubKey ("0"%char :: "4"%char :: h) 65.

Definition uncompressed_G : jsstring :=
  "0479be667ef9dcbbac55a06295ce870b07029bfcdb2dce28d959f2815b16f81798483ada7726a3c4655da4fbfc0e1108a8fd17b448a68554199c47d08ffb10d4b8".

(** The key expressions of a miniscript, in order of appearance. *)
Definition keyExpressions (miniscript : jsstring) : list jsstring :=
  map matched (String_matchAll miniscript reKeyExp).

(** The variable of the key expression number [n]. *)
Definition variable (n : nat) : jsstring := "@" +++ decimal (N.of_nat n).






(** A level of a derivation path: decimal digits and whether a hardener
    follows, written as one of the three hardener characters. *)
Record level : Type := Level {
  digits : jsstring;
  hardener : option ascii
}.

Definition is_hardener (c : ascii) : bool :=
  in_class false [("'", "'"); ("h", "h"); ("H", "H")]%char c.

Definition well_formed (l : level) : bool :=
  all_digits (digits l) &&
  match hardener l with
  | Some c => is_hardener c
  | None => true
  end.

Definition level_text (l : level) : jsstring :=
  digits l ++ match hardener l with Some c => [c] | None => [] end.

(** The level as [derivePath] hands it on: the hardener is the apostrophe. *)
Definition normalized (l : level) : jsstring :=
  digits l ++ match hardener l with Some _ => ["'"%char] | None => [] end.

Definition path_text (ls : list level) : jsstring :=
  flat_map (fun l => "/"%char :: level_text l) ls.

Definition normalized_path (ls : list level) : jsstring :=
  skipn 1 (flat_map (fun l => "/"%char :: normalized l) ls).

Definition overflows (l : level) : bool :=
  (0x80000000 <=? decimal_value (digits l))%Z.

Definition unhardening (c : ascii) : jsstring :=
  if ascii_eqb "h"%char c then ["'"%char] else [c].
Definition unHardening (c : ascii) : jsstring :=
  if ascii_eqb "H"%char c then ["'"%char] else [c].

(** The generator point, compressed, and two descriptors of it. *)
Definition compressed_G : jsstring :=
  "0279be667ef9dcbbac55a06295ce870b07029bfcdb2dce28d959f2815b16f81798".
Definition wpkh_G : jsstring := "wpkh(" +++ compressed_G +++ ")".
Definition addr_example : jsstring := "addr(bc1qw508d6qejxtdg4y5r3zarvary0c5xw7kv8f3t4)".
(** A range descriptor over the master key of the first BIP32 test vector. *)
Definition wpkh_range : jsstring :=
  "wpkh(xpub661MyMwAqRbcFtXgS5sYJABqqG9YLmC4Q1Rdap9gSE8NqtwybGhePY2gZ29ESFjqJoCu1Rupje8YtGqsefD265TMg7usUDFdp6W1EGMcet8/1/*)".

(** A result that is not an error of a given kind. *)
Definition avoids {A : Type} (bad : Error -> bool) (r : result A) : Prop :=
  match r with
  | OK _ => True
  | Throw e => bad e = false
  end.

Definition is_DuplicateKey (e : Error) : bool :=
  match e with
  | DuplicateKey _ => true
  | _ => false
  end.

(** A miniscript of two keys, the second one uncompressed. *)
Definition two_keys : jsstring :=
  "and_v(v:pk(" +++ compressed_G +++ "),pk(" +++ uncompressed_G +++ "))".

(** ** Properties *)

(** Every pattern of the source is read as a pattern. *)
Lemma source_patterns_compile :
  forallb (fun source => negb (is_null (RegExp source)))
    [reKeyExp; rePkAnchored; reAddrAnchored; rePkhAnchored; reWpkhAnchored;
     reShWpkhAnchored; reShMiniscriptAnchored; reShWshMiniscriptAnchored;
     reWshMiniscriptAnchored; reChecksumAtEnd; reWildcard; reLeadingOrigin;
     anchorStartAndEnd rePubKey; anchorStartAndEnd reWIF;
     anchorStartAndEnd reXpubKey; anchorStartAndEnd reXprvKey; reXpub; reXprv;
     rePath; reShAllowed; reWhiteSpaces; reBareNumber; reAngles] = true.
Proof. vm_compute. reflexivity. Qed.

Lemma compile_reChecksumAtEnd :
  compile reChecksumAtEnd =
  Seq (Group 1 (Group 2 (Seq (Chr "#"%char) (Quant 8 (Some 8) true (Class false checksum_symbols))))) Eol.
Proof. vm_compute. reflexivity. Qed.

Lemma clear_caps_nil x : clear_caps [] x = x.
Proof.
  destruct x as [p r c]. unfold clear_caps. simpl. f_equal.
  induction c as [|a c IH]; simpl; [reflexivity|]. now rewrite IH.
Qed.

Lemma orelse_None_l {A} (b : option A) : orelse None b = b.
Proof. reflexivity. Qed.

(** Exactly [n] code units of one class. *)
Lemma RepeatMatcher_class_exact neg ranges k :
  forall n fuel x, n < fuel ->
  RepeatMatcher (rmatch (Class neg ranges)) [] true k fuel n (Some n) x =
  if (n <=? length (rest x))%nat && forallb (in_class neg ranges) (firstn n (rest x))
  then k (advance n x) else None.
Proof.
  induction n as [|n IH]; intros fuel x Hf.
  - destruct fuel as [|fuel]; [lia|]. simpl. reflexivity.
  - destruct fuel as [|fuel]; [lia|].
    cbn [RepeatMatcher max_is_zero Nat.eqb negb pred option_map andb].
    rewrite clear_caps_nil. cbn [rmatch].
    destruct (rest x) as [|c t] eqn:Hr.
    + reflexivity.
    + destruct (in_class neg ranges c) eqn:Hc.
      * rewrite IH by lia. cbn [rest firstn forallb advance length caps].
        rewrite Hr. rewrite Hc. cbn [andb]. reflexivity.
      * cbn [firstn forallb length]. rewrite Hc. rewrite andb_false_r. reflexivity.
Qed.

(** The equations of [rmatch], one per construct. *)
Lemma rmatch_Empty s k : rmatch Empty s k = k s.
Proof. reflexivity. Qed.
Lemma rmatch_Class_cons neg ranges p c t cs k :
  rmatch (Class neg ranges) (MState p (c :: t) cs) k =
  if in_class neg ranges c then k (MState (Some c) t cs) else None.
Proof. reflexivity. Qed.
Lemma rmatch_Class_nil neg ranges p cs k :
  rmatch (Class neg ranges) (MState p [] cs) k = None.
Proof. reflexivity. Qed.
Lemma rmatch_Bol s k :
  rmatch Bol s k = match prev s with None => k s | Some _ => None end.
Proof. reflexivity. Qed.
Lemma rmatch_Eol s k :
  rmatch Eol s k = match rest s with [] => k s | _ :: _ => None end.
Proof. reflexivity. Qed.
Lemma rmatch_Seq r1 r2 s k :
  rmatch (Seq r1 r2) s k = rmatch r1 s (fun s1 => rmatch r2 s1 k).
Proof. reflexivity. Qed.
Lemma rmatch_Alt r1 r2 s k :
  rmatch (Alt r1 r2) s k = orelse (rmatch r1 s k) (rmatch r2 s k).
Proof. reflexivity. Qed.
Lemma rmatch_Quant min max greedy r s k :
  rmatch (Quant min max greedy r) s k =
  RepeatMatcher (rmatch r) (groups_of r) greedy k (S (min + length (rest s))) min max s.
Proof. reflexivity. Qed.
Lemma rmatch_Group n r s k :
  rmatch (Group n r) s k = rmatch r s (fun s' => k (set_cap n (consumed s s') s')).
Proof. reflexivity. Qed.

Create Rewrite HintDb rmatch.

#[export] Hint Rewrite rmatch_Empty rmatch_Class_cons rmatch_Class_nil rmatch_Bol
  rmatch_Eol rmatch_Seq rmatch_Alt rmatch_Quant rmatch_Group : rmatch.

Lemma rest_advance n : forall x, rest (advance n x) = skipn n (rest x).
Proof.
  induction n as [|n IH]; intros x; simpl; [reflexivity|].
  destruct (rest x) as [|c t] eqn:Hr; [now rewrite Hr|].
  rewrite IH. reflexivity.
Qed.

Lemma rest_set_cap n v s : rest (set_cap n v s) = rest s.
Proof. reflexivity. Qed.

Lemma caps_advance n : forall x, caps (advance n x) = caps x.
Proof.
  induction n as [|n IH]; intros x; simpl; [reflexivity|].
  destruct (rest x) as [|c t] eqn:Hr; [reflexivity|].
  rewrite IH. reflexivity.
Qed.

Lemma in_class_single c a : in_class false [(c, c)] a = ascii_eqb c a.
Proof.
  unfold in_class, in_range, ascii_eqb. simpl.
  rewrite orb_false_r.
  destruct (Ascii.eqb c a) eqn:E.
  - apply Ascii.eqb_eq in E. subst. now rewrite N.leb_refl.
  - apply Ascii.eqb_neq in E.
    destruct (N.leb_spec (N_of_ascii c) (N_of_ascii a)); [|reflexivity].
    destruct (N.leb_spec (N_of_ascii a) (N_of_ascii c)); [|reflexivity].
    exfalso. apply E. rewrite <- (ascii_N_embedding c), <- (ascii_N_embedding a).
    f_equal. lia.
Qed.

Lemma token_length t : is_token t = true -> length t = 9.
Proof.
  destruct t as [|c cs]; simpl; [discriminate|].
  rewrite !andb_true_iff. intros [[_ H] _]. apply Nat.eqb_eq in H. now rewrite H.
Qed.

(** At a position the pattern matches exactly when all that is left is a
    checksum token. *)
Lemma match_at_checksum i p r :
  option_map matched (match_at (compile reChecksumAtEnd) i (MState p r [])) =
  if is_token r then Some r else None.
Proof.
  rewrite compile_reChecksumAtEnd. unfold match_at, Chr.
  cbn [prev rest caps].
  destruct r as [|c t]; [reflexivity|].
  autorewrite with rmatch.
  rewrite in_class_single. cbn [is_token].
  destruct (ascii_eqb "#"%char c) eqn:Ec; [|reflexivity].
  autorewrite with rmatch. cbn [rest andb groups_of].
  rewrite RepeatMatcher_class_exact by lia.
  cbn [rest]. rewrite rmatch_Eol.
  destruct (Nat.leb_spec 8 (length t)) as [Hl|Hl].
  - cbn [andb]. rewrite !rest_set_cap, rest_advance. cbn [rest].
    destruct (skipn 8 t) as [|a u] eqn:Hs.
    + assert (length t = 8) as Hlen.
      { pose proof (length_skipn 8 t) as H. rewrite Hs in H. simpl in H. lia. }
      rewrite Hlen, Nat.eqb_refl. rewrite (firstn_all2 t) by lia.
      change (forallb (in_class false checksum_symbols)) with (forallb checksum_symbol).
      destruct (forallb checksum_symbol t); [|reflexivity].
      cbn [option_map matched andb]. unfold consumed. rewrite !rest_set_cap.
      rewrite rest_advance. cbn [rest]. rewrite Hs. cbn [length].
      rewrite Nat.sub_0_r. change (firstn (S (length t)) (c :: t)) with (c :: firstn (length t) t).
      rewrite firstn_all. reflexivity.
    + assert (length t <> 8) as Hlen.
      { pose proof (length_skipn 8 t) as H. rewrite Hs in H. simpl in H. lia. }
      apply Nat.eqb_neq in Hlen. rewrite Hlen.
      destruct (forallb _ (firstn 8 t)); reflexivity.
  - assert ((length t =? 8)%nat = false) as E by (apply Nat.eqb_neq; lia).
    rewrite E. reflexivity.
Qed.

Lemma exec_from_checksum s : forall i p,
  option_map matched (exec_from (compile reChecksumAtEnd) i p s) = find_token s.
Proof.
  induction s as [|c t IH]; intros i p.
  - cbn [exec_from find_token]. pose proof (match_at_checksum i p []) as H.
    destruct (match_at _ i _); simpl in *; [discriminate|reflexivity].
  - cbn [exec_from find_token]. pose proof (match_at_checksum i p (c :: t)) as H.
    destruct (match_at _ i _) as [m|]; cbn [option_map] in *.
    + destruct (is_token (c :: t)); [assumption|discriminate].
    + destruct (is_token (c :: t)); [discriminate|]. apply IH.
Qed.

Lemma find_token_tail s :
  find_token s = if checksum_tail s then Some (skipn (length s - 9) s) else None.
Proof.
  unfold checksum_tail. induction s as [|c t IH].
  - reflexivity.
  - cbn [find_token]. destruct (is_token (c :: t)) eqn:E.
    + apply token_length in E as Hl. rewrite Hl. cbn [Nat.sub skipn]. now rewrite E.
    + rewrite IH. cbn [length].
      destruct (Nat.le_gt_cases (length t) 8) as [Hl|Hl].
      * replace (length t - 9) with 0 by lia. replace (S (length t) - 9) with 0 by lia.
        cbn [skipn]. rewrite E.
        destruct (is_token t) eqn:Et; [|reflexivity].
        apply token_length in Et. lia.
      * replace (S (length t) - 9) with (S (length t - 9)) by lia. reflexivity.
Qed.

Theorem String_match_checksum s :
  option_map matched (String_match s reChecksumAtEnd) =
  if checksum_tail s then Some (skipn (length s - 9) s) else None.
Proof.
  unfold String_match, exec. rewrite exec_from_checksum. apply find_token_tail.
Qed.

Lemma compile_reWildcard : compile reWildcard = Chr "*"%char.
Proof. vm_compute. reflexivity. Qed.

Lemma match_at_wildcard i p c t :
  match_at (Chr "*"%char) i (MState p (c :: t) []) =
  if ascii_eqb "*"%char c
  then Some (MatchResult i [c] [] (MState (Some c) t []))
  else None.
Proof.
  unfold match_at, Chr. cbn [prev rest]. rewrite rmatch_Class_cons, in_class_single.
  destruct (ascii_eqb "*"%char c); [|reflexivity].
  unfold consumed. cbn [rest length caps].
  replace (S (length t) - length t) with 1 by lia. reflexivity.
Qed.

Lemma exec_from_wildcard s : forall i p,
  is_null (exec_from (Chr "*"%char) i p s) = negb (has_wildcard s).
Proof.
  induction s as [|c t IH]; intros i p.
  - reflexivity.
  - cbn [exec_from has_wildcard existsb]. rewrite match_at_wildcard.
    destruct (ascii_eqb "*"%char c); [reflexivity|]. apply IH.
Qed.

Lemma String_match_global_wildcard s :
  match String_match_global s reWildcard with
  | Some ws => (0 <? length ws)%nat
  | None => false
  end = has_wildcard s.
Proof.
  unfold String_match_global, String_matchAll. rewrite compile_reWildcard.
  cbn [exec_all]. pose proof (exec_from_wildcard s 0 None) as H.
  destruct (exec_from (Chr "*"%char) 0 None s) as [m|]; cbn [is_null] in H.
  - destruct (has_wildcard s); [|discriminate].
    destruct (matched m); [destruct (rest (after m))|]; reflexivity.
  - destruct (has_wildcard s); [discriminate|reflexivity].
Qed.

Section Isolate.

Context {Sv : Services}.

(** [isolate] without regular expressions. *)
Lemma isolate_spec expression checksumRequired index :
  isolate expression checksumRequired index =
  if checksum_tail expression then
    if jsstring_eqb (skipn (length expression - 8) expression)
                    (DescriptorChecksum (firstn (length expression - 9) expression))
    then particularize (firstn (length expression - 9) expression) index
    else Throw (InvalidChecksum expression)
  else if checksumRequired then Throw (MissingChecksum expression)
  else particularize expression index.
Proof.
  assert (forall bare,
    match String_match_global bare reWildcard with
    | Some ws =>
        if (0 <? length ws)%nat then
          if negb (isInteger index) || below_zero index
          then Throw (InvalidIndex index)
          else OK (replaceAll bare "*" (toString index))
        else OK bare
    | None => OK bare
    end = particularize bare index) as Hw.
  { intros bare. unfold particularize. rewrite <- String_match_global_wildcard.
    destruct (String_match_global bare reWildcard) as [ws|]; reflexivity. }
  unfold isolate. pose proof (String_match_checksum expression) as H.
  destruct (String_match expression reChecksumAtEnd) as [m|]; cbn [option_map] in H.
  - destruct (checksum_tail expression) eqn:Et; [|discriminate].
    injection H as H. rewrite H. cbn [is_null andb].
    unfold checksum_tail in Et. apply token_length in Et as Hl. rewrite Hl.
    unfold slice_from, substring0. rewrite skipn_skipn.
    assert (9 <= length expression) as Hge.
    { rewrite length_skipn in Hl. lia. }
    replace (1 + (length expression - 9)) with (length expression - 8) by lia.
    destruct (jsstring_eqb _ _); cbn [negb bind]; [apply Hw|reflexivity].
  - destruct (checksum_tail expression); [discriminate|].
    cbn [is_null andb]. destruct checksumRequired; [reflexivity|].
    cbn [bind]. apply Hw.
Qed.

End Isolate.

Lemma same_error_refl e : same_error e e.
Proof. destruct e; simpl; auto. Qed.

Lemma same_outcome_refl {A} (r : result A) : same_outcome r r.
Proof. destruct r; simpl; auto using same_error_refl. Qed.

Lemma jsstring_eqb_eq a : forall b, jsstring_eqb a b = true <-> a = b.
Proof.
  induction a as [|x a IH]; intros [|y b]; simpl; split; try congruence; try discriminate.
  - rewrite andb_true_iff. intros [H1 H2]. apply Ascii.eqb_eq in H1. apply IH in H2. congruence.
  - intros H. injection H as -> ->. rewrite andb_true_iff. split.
    + apply Ascii.eqb_refl.
    + now apply IH.
Qed.

Lemma jsstring_eqb_refl a : jsstring_eqb a a = true.
Proof. now apply jsstring_eqb_eq. Qed.

Section Constructor.

Context {Sv : Services}.

Ltac split_outcome :=
  repeat (cbv beta zeta; cbn [bind];
          match goal with
          | |- same_outcome ?r ?r => apply same_outcome_refl
          | |- same_outcome (Throw _) (Throw _) => exact I
          | |- same_outcome (if ?c then _ else _) _ => destruct c
          | |- same_outcome (match ?c with _ => _ end) _ => destruct c
          | |- same_outcome (bind ?c _) _ => destruct c
          end).

(** After [isolate] the constructor looks at the expression given only to
    name it in two error messages. *)
Lemma Descriptor_new_same_isolated e1 e2 i1 i2 cr1 cr2 allow unknowns network iso :
  isolate e1 (default cr1 false) i1 = OK iso ->
  isolate e2 (default cr2 false) i2 = OK iso ->
  same_outcome (Descriptor_new e1 i1 cr1 allow unknowns network)
               (Descriptor_new e2 i2 cr2 allow unknowns network).
Proof.
  intros H1 H2. unfold Descriptor_new. cbv zeta. rewrite H1, H2. cbn [bind].
  split_outcome.
Qed.

End Constructor.

Lemma nie_OK {A} (a : A) : not_index_error (OK a).
Proof. intros x H. discriminate. Qed.

Lemma nie_bind {A B} (c : result A) (k : A -> result B) :
  not_index_error c -> (forall a, not_index_error (k a)) -> not_index_error (bind c k).
Proof.
  intros Hc Hk x. destruct c as [a|e]; simpl.
  - apply Hk.
  - intros H. injection H as ->. now apply (Hc x).
Qed.

Lemma nie_orThrow {A} (e : Error) (o : option A) :
  (forall x, e <> InvalidIndex x) -> not_index_error (orThrow e o).
Proof. intros He x. destruct o; simpl; [discriminate|]. intros H. injection H as ->. now apply (He x). Qed.

Lemma nie_forEach {A} (body : A -> result unit) l :
  (forall a, not_index_error (body a)) -> not_index_error (forEach l body).
Proof.
  intros Hb. induction l as [|a l IH]; simpl.
  - apply nie_OK.
  - apply nie_bind; [apply Hb|intros _; apply IH].
Qed.

Lemma nie_reduce {A B} (f : B -> A -> result B) l :
  (forall b a, not_index_error (f b a)) -> forall acc, not_index_error (reduce f l acc).
Proof.
  intros Hf. induction l as [|a l IH]; intros acc; simpl.
  - apply nie_OK.
  - apply nie_bind; [apply Hf|intros b; apply IH].
Qed.

Lemma nie_callbacks {S} (f : jsstring -> S -> result (jsstring * S)) ms :
  (forall k st, not_index_error (f k st)) -> forall st, not_index_error (callbacks f ms st).
Proof.
  intros Hf. induction ms as [|m ms IH]; intros st; simpl.
  - apply nie_OK.
  - apply nie_bind; [apply Hf|]. intros [rep st1].
    apply nie_bind; [apply IH|]. intros [reps st2]. apply nie_OK.
Qed.

Lemma nie_replace_callback {S} s source (f : jsstring -> S -> result (jsstring * S)) st :
  (forall k st, not_index_error (f k st)) ->
  not_index_error (String_replace_callback s source f st).
Proof.
  intros Hf. unfold String_replace_callback.
  apply nie_bind; [now apply nie_callbacks|]. intros [reps st']. apply nie_OK.
Qed.

Ltac nie :=
  repeat (cbv beta zeta;
          match goal with
          | |- not_index_error (OK _) => apply nie_OK
          | |- not_index_error (Throw _) => let x := fresh in let H := fresh in intros x H; discriminate H
          | |- not_index_error (orThrow _ _) => apply nie_orThrow; discriminate
          | |- not_index_error (bind _ _) => apply nie_bind; [|intro]
          | |- not_index_error (reduce _ _ _) => apply nie_reduce; intros
          | |- not_index_error (forEach _ _) => apply nie_forEach; intros
          | |- not_index_error (String_replace_callback _ _ _ _) =>
              apply nie_replace_callback; intros
          | |- not_index_error (if ?c then _ else _) => destruct c
          | |- not_index_error (match ?c with _ => _ end) => destruct c
          end).

Section NoIndexError.

Context {Sv : Services}.

Lemma nie_derivePath node path : not_index_error (derivePath node path).
Proof.
  unfold derivePath. nie.
Qed.

Lemma nie_keyExpression2PubKey k n s : not_index_error (keyExpression2PubKey k n s).
Proof.
  unfold keyExpression2PubKey. nie; apply nie_derivePath.
Qed.

Lemma nie_countNonPushOnlyOPs s : not_index_error (countNonPushOnlyOPs s).
Proof. unfold countNonPushOnlyOPs. nie. Qed.

Lemma nie_solveMiniscript m s u n : not_index_error (solveMiniscript m s u n).
Proof.
  unfold solveMiniscript. nie.
  unfold assignKey. nie. apply nie_keyExpression2PubKey.
Qed.

End NoIndexError.

Lemma tail_app (e t : jsstring) : length t = 9 ->
  skipn (length (e ++ t) - 9) (e ++ t) = t /\
  firstn (length (e ++ t) - 9) (e ++ t) = e /\
  skipn (length (e ++ t) - 8) (e ++ t) = skipn 1 t.
Proof.
  intros Ht. rewrite length_app, Ht.
  replace (length e + 9 - 9) with (length e) by lia.
  replace (length e + 9 - 8) with (length e + 1) by lia.
  repeat split.
  - rewrite skipn_app, skipn_all, Nat.sub_diag. reflexivity.
  - rewrite firstn_app, firstn_all, Nat.sub_diag. simpl. apply app_nil_r.
  - rewrite skipn_app. rewrite skipn_all2 by lia.
    replace (length e + 1 - length e) with 1 by lia. reflexivity.
Qed.

Lemma checksum_tail_app (e t : jsstring) : is_token t = true -> checksum_tail (e ++ t) = true.
Proof.
  intros Ht. unfold checksum_tail.
  destruct (tail_app e t (token_length t Ht)) as [-> _]. exact Ht.
Qed.

Lemma startsWith_nil (s : jsstring) : startsWith s [] = true.
Proof. destruct s; reflexivity. Qed.

(** Replacing a one-character pattern goes character by character. *)
Lemma replaceAll_char (s : jsstring) a rep :
  replaceAll s [a] rep = flat_map (fun c => if ascii_eqb a c then rep else [c]) s.
Proof.
  unfold replaceAll. induction s as [|c t IH]; [reflexivity|].
  cbn [replaceAll_go startsWith flat_map length Nat.sub].
  rewrite startsWith_nil, andb_true_r. destruct (ascii_eqb a c); rewrite IH; reflexivity.
Qed.

Lemma has_wildcard_app (a b : jsstring) : has_wildcard (a ++ b) = has_wildcard a || has_wildcard b.
Proof. apply existsb_app. Qed.

Lemma has_wildcard_replaceAll s rep :
  has_wildcard rep = false -> has_wildcard (replaceAll s (str "*") rep) = false.
Proof.
  intros Hr. change (str "*") with ["*"%char]. rewrite replaceAll_char.
  induction s as [|c t IH]; [reflexivity|].
  cbn [flat_map]. rewrite has_wildcard_app, IH, orb_false_r.
  destruct (ascii_eqb "*"%char c) eqn:E; [exact Hr|].
  cbn [has_wildcard existsb]. now rewrite E.
Qed.

Lemma replaceAll_no_wildcard s rep :
  has_wildcard s = false -> replaceAll s (str "*") rep = s.
Proof.
  change (str "*") with ["*"%char]. rewrite replaceAll_char.
  induction s as [|c t IH]; [reflexivity|].
  cbn [has_wildcard existsb flat_map]. rewrite orb_false_iff. intros [E H].
  rewrite E. simpl. f_equal. now apply IH.
Qed.

Lemma has_wildcard_uint d :
  has_wildcard (str (NilEmpty.string_of_uint d)) = false.
Proof. induction d; simpl; auto. Qed.

Lemma has_wildcard_decimal n : has_wildcard (decimal n) = false.
Proof. apply has_wildcard_uint. Qed.

Lemma In_firstn_In {A} n (l : list A) x : In x (firstn n l) -> In x l.
Proof. intros H. rewrite <- (firstn_skipn n l). apply in_or_app. now left. Qed.

Lemma In_skipn_In {A} n (l : list A) x : In x (skipn n l) -> In x l.
Proof. intros H. rewrite <- (firstn_skipn n l). apply in_or_app. now right. Qed.

Section Claims.

Context {Sv : Services}.

Lemma toString_Int i :
  (0 <= i < 2 ^ 53)%Z -> toString (Some (Int i)) = decimal (Z.to_N i).
Proof.
  intros H. unfold toString, Number_toString.
  replace (Z.abs i <? 2 ^ 53)%Z with true by (symmetry; apply Z.ltb_lt; lia).
  replace (i <? 0)%Z with false by (symmetry; apply Z.ltb_ge; lia).
  reflexivity.
Qed.

Lemma particularize_no_wildcard bare index :
  has_wildcard bare = false -> particularize bare index = OK bare.
Proof. intros H. unfold particularize. now rewrite H. Qed.

Lemma particularize_Int bare i :
  (0 <= i < 2 ^ 53)%Z ->
  particularize bare (Some (Int i)) = OK (replaceAll bare "*" (decimal (Z.to_N i))).
Proof.
  intros H. unfold particularize. destruct (has_wildcard bare) eqn:E.
  - cbn [isInteger Number_isInteger below_zero number_ltb negb orb].
    replace (i <? 0)%Z with false by (symmetry; apply Z.ltb_ge; lia).
    now rewrite toString_Int.
  - now rewrite replaceAll_no_wildcard.
Qed.

(** With a valid checksum appended, [isolate] does what it does without. *)
Lemma isolate_with_checksum e cr index :
  is_token ("#"%char :: DescriptorChecksum e) = true ->
  isolate (e ++ "#"%char :: DescriptorChecksum e) cr index = particularize e index.
Proof.
  intros Ht. rewrite isolate_spec, checksum_tail_app by exact Ht.
  destruct (tail_app e _ (token_length _ Ht)) as (_ & -> & ->).
  cbn [skipn]. now rewrite jsstring_eqb_refl.
Qed.

Lemma isolate_bare e index :
  checksum_tail e = false -> isolate e false index = particularize e index.
Proof. intros Ht. now rewrite isolate_spec, Ht. Qed.

Lemma Descriptor_new_OK_isolate e index cr allow unknowns network d :
  Descriptor_new e index cr allow unknowns network = OK d ->
  exists iso, isolate e (default cr false) index = OK iso.
Proof.
  unfold Descriptor_new. cbv zeta.
  destruct (isolate e (default cr false) index) as [iso|err]; [eauto|discriminate].
Qed.

(** C2: an expression that carries no checksum and constructs a Descriptor
    constructs the same Descriptor (same payment, same satisfaction
    assembly) when [#] and its checksum are appended, whether or not a
    checksum is required.  The checksum function is a service: its value
    on the expression is taken to be eight checksum symbols. *)
Theorem checksum_round_trip e index allow unknowns network d :
  checksum_tail e = false ->
  is_token ("#"%char :: Descriptor_checksum e) = true ->
  Descriptor_new e index None allow unknowns network = OK d ->
  forall checksumRequired,
    Descriptor_new (e +++ "#" +++ Descriptor_checksum e) index checksumRequired
      allow unknowns network = OK d.
Proof.
  intros Hbare Ht Hd cr. unfold Descriptor_checksum in *.
  destruct (Descriptor_new_OK_isolate _ _ _ _ _ _ _ Hd) as [iso Hiso].
  cbn [default] in Hiso. rewrite isolate_bare in Hiso by exact Hbare.
  pose proof (Descriptor_new_same_isolated
                (e ++ "#"%char :: DescriptorChecksum e) e index index cr None
                allow unknowns network iso) as H.
  rewrite isolate_with_checksum in H by exact Ht.
  cbn [default] in H. rewrite isolate_bare in H by exact Hbare.
  specialize (H Hiso Hiso). rewrite Hd in H.
  change (str "#" ++ DescriptorChecksum e) with ("#"%char :: DescriptorChecksum e).
  destruct (Descriptor_new (e ++ "#"%char :: DescriptorChecksum e) _ _ _ _ _);
    simpl in H; [now subst|contradiction].
Qed.

(** A well-formed token that is not the checksum of what precedes it. *)
Lemma wrong_checksum e c index cr allow unknowns network :
  is_token ("#"%char :: c) = true ->
  c <> DescriptorChecksum e ->
  Descriptor_new (e ++ "#"%char :: c) index cr allow unknowns network =
  Throw (InvalidChecksum (e ++ "#"%char :: c)).
Proof.
  intros Ht Hc. unfold Descriptor_new. cbv zeta.
  rewrite isolate_spec, checksum_tail_app by exact Ht.
  destruct (tail_app e _ (token_length _ Ht)) as (_ & -> & ->).
  cbn [skipn]. destruct (jsstring_eqb c (DescriptorChecksum e)) eqn:E.
  - apply jsstring_eqb_eq in E. contradiction.
  - reflexivity.
Qed.

(** C3, amended: replacing one of the eight symbols of a valid checksum
    with a different symbol of the checksum character set makes the
    construction fail with InvalidChecksum, before anything else is looked
    at. *)
Theorem corrupted_checksum e i c index cr allow unknowns network :
  is_token ("#"%char :: Descriptor_checksum e) = true ->
  i < 8 ->
  checksum_symbol c = true ->
  nth_error (Descriptor_checksum e) i <> Some c ->
  let corrupted :=
    e +++ "#" +++ firstn i (Descriptor_checksum e) ++ c :: skipn (S i) (Descriptor_checksum e) in
  Descriptor_new corrupted index cr allow unknowns network =
  Throw (InvalidChecksum corrupted).
Proof.
  intros Ht Hi Hc Hn corrupted. subst corrupted. unfold Descriptor_checksum in *.
  set (cs := DescriptorChecksum e) in *.
  change (str "#" ++ ?x) with ("#"%char :: x).
  assert (length cs = 8) as Hl by (apply token_length in Ht; simpl in Ht; lia).
  assert (nth i cs c <> c) as Hn'.
  { intros Heq. apply Hn. rewrite (nth_error_nth' cs c) by lia. now rewrite Heq. }
  clear Hn. rename Hn' into Hn.
  apply wrong_checksum.
  - cbn [is_token] in *. rewrite !andb_true_iff in *. destruct Ht as [[H1 H2] H3].
    split; [split; [exact H1|]|].
    + apply Nat.eqb_eq. rewrite length_app. cbn [length].
      rewrite length_firstn, length_skipn. lia.
    + rewrite forallb_app. cbn [forallb]. rewrite Hc.
      rewrite forallb_forall in H3.
      rewrite !andb_true_iff. repeat split; apply forallb_forall; intros x Hx; apply H3.
      * eapply In_firstn_In; eauto.
      * eapply In_skipn_In; eauto.
  - intros Heq. apply Hn. fold cs in Heq.
    pose proof (f_equal (fun l => nth i l c) Heq) as Hx. cbv beta in Hx.
    rewrite <- Hx. rewrite app_nth2; rewrite length_firstn; [|lia].
    replace (i - Nat.min i (length cs)) with 0 by lia. reflexivity.
Qed.

(** C4, amended: for a range descriptor that carries no checksum, before
    and after the substitution, and an integer index from 0 to below 2^53,
    where every integer is a number and prints as its decimal digits,
    constructing with the index gives the same outcome as constructing
    from the text with every wildcard replaced by the decimal digits of
    the index: the same Descriptor, or the same error up to the expression
    its message names. *)
Theorem range_lockstep R i j cr allow unknowns network :
  (0 <= i < 2 ^ 53)%Z ->
  checksum_tail R = false ->
  checksum_tail (replaceAll R "*" (decimal (Z.to_N i))) = false ->
  same_outcome
    (Descriptor_new R (Some (Int i)) cr allow unknowns network)
    (Descriptor_new (replaceAll R "*" (decimal (Z.to_N i))) j cr allow unknowns network).
Proof.
  intros Hi HR HS.
  destruct (default cr false) eqn:Hcr.
  - unfold Descriptor_new. cbv zeta. rewrite Hcr, !isolate_spec, HR, HS. exact I.
  - apply Descriptor_new_same_isolated with (iso := replaceAll R "*" (decimal (Z.to_N i)));
      rewrite Hcr, isolate_bare by assumption.
    + now apply particularize_Int.
    + apply particularize_no_wildcard, has_wildcard_replaceAll, has_wildcard_decimal.
Qed.

(** X10: a range descriptor that carries its checksum, constructed with an
    integer index from 0 to below 2^53, has the outcome of the text before
    the checksum with the index written for every wildcard: the checksum
    is verified on the text with its wildcards, and the index goes in
    afterwards. *)
Lemma range_with_checksum B i j cr allow unknowns network :
  (0 <= i < 2 ^ 53)%Z ->
  is_token ("#"%char :: DescriptorChecksum B) = true ->
  checksum_tail (replaceAll B "*" (decimal (Z.to_N i))) = false ->
  same_outcome
    (Descriptor_new (B ++ "#"%char :: DescriptorChecksum B) (Some (Int i)) cr
       allow unknowns network)
    (Descriptor_new (replaceAll B "*" (decimal (Z.to_N i))) j None allow unknowns network).
Proof.
  intros Hi Ht HS.
  apply Descriptor_new_same_isolated with (iso := replaceAll B "*" (decimal (Z.to_N i))).
  - rewrite isolate_with_checksum by exact Ht. now apply particularize_Int.
  - cbn [default]. rewrite isolate_bare by exact HS.
    apply particularize_no_wildcard, has_wildcard_replaceAll, has_wildcard_decimal.
Qed.

(** C9: when the expression, its checksum removed, has no wildcard, the
    index is not looked at: any two indices, absent, negative or fractional
    ones included, give the same result, and that result is never the
    invalid-index error. *)
Theorem index_unused_without_wildcard expression cr allow unknowns network :
  has_wildcard (strip_checksum expression) = false ->
  forall i j,
    Descriptor_new expression i cr allow unknowns network =
    Descriptor_new expression j cr allow unknowns network /\
    not_index_error (Descriptor_new expression i cr allow unknowns network).
Proof.
  intros Hw i j. unfold strip_checksum in Hw.
  assert (forall k, isolate expression (default cr false) k =
                    isolate expression (default cr false) i) as Hiso.
  { intros k. rewrite !isolate_spec.
    destruct (checksum_tail expression);
      repeat match goal with |- context [if ?c then _ else _] => destruct c end;
      rewrite ?particularize_no_wildcard by exact Hw; reflexivity. }
  split.
  - unfold Descriptor_new. cbv zeta. now rewrite (Hiso j).
  - unfold Descriptor_new. cbv zeta. apply nie_bind.
    + rewrite isolate_spec.
      destruct (checksum_tail expression);
        repeat match goal with |- context [if ?c then _ else _] => destruct c end;
        rewrite ?particularize_no_wildcard by exact Hw; nie.
    + intros iso. nie;
        first [apply nie_keyExpression2PubKey | apply nie_solveMiniscript
              | apply nie_countNonPushOnlyOPs].
Qed.

End Claims.

Lemma compile_rePubKeyAnchored : compile (anchorStartAndEnd rePubKey) = rePubKeyAnchored_ast.
Proof. vm_compute. reflexivity. Qed.
Lemma compile_reKeyExp : compile reKeyExp = reKeyExp_ast.
Proof. vm_compute. reflexivity. Qed.
Lemma compile_reLeadingOrigin : compile reLeadingOrigin = reLeadingOrigin_ast.
Proof. vm_compute. reflexivity. Qed.

Lemma RepeatMatcher_S m gs greedy k fuel min max x :
  RepeatMatcher m gs greedy k (S fuel) min max x =
  if max_is_zero max then k x
  else
    let again :=
      m (clear_caps gs x)
        (fun y =>
           if Nat.eqb min 0 && Nat.eqb (length (rest y)) (length (rest x))
           then None
           else RepeatMatcher m gs greedy k fuel (pred min) (option_map pred max) y) in
    if negb (Nat.eqb min 0) then again
    else if greedy then orelse again (k x)
    else orelse (k x) again.
Proof. reflexivity. Qed.

(** Membership of a given character in a given class is computed. *)
Ltac class_step :=
  match goal with
  | |- context [in_class ?n ?r (Ascii ?b0 ?b1 ?b2 ?b3 ?b4 ?b5 ?b6 ?b7)] =>
      let v := eval vm_compute in (in_class n r (Ascii b0 b1 b2 b3 b4 b5 b6 b7)) in
      change (in_class n r (Ascii b0 b1 b2 b3 b4 b5 b6 b7)) with v
  end.

Ltac rx :=
  repeat (first
    [ progress autorewrite with rmatch
    | progress cbv beta
    | progress cbn [prev rest caps orelse set_cap groups_of clear_caps filter app
                    max_is_zero negb Nat.eqb existsb fst andb orb]
    | class_step
    | rewrite RepeatMatcher_class_exact by (cbn [length rest]; lia) ]).

(** The end of a match that has run through all of [h]: nothing is left. *)
Lemma advance_all n p h cs :
  length h = n -> rest (advance n (MState p h cs)) = [].
Proof. intros H. rewrite rest_advance. cbn [rest]. apply skipn_all2. lia. Qed.

Lemma consumed_all p s x : rest x = [] -> consumed (MState p s []) x = s.
Proof. intros H. unfold consumed. rewrite H. cbn [rest length]. rewrite Nat.sub_0_r. apply firstn_all. Qed.

Ltac run_through h Hl Hh :=
  rewrite Hl; cbn [Nat.leb andb]; rewrite firstn_all2 with (l := h) by lia;
  change (forallb (in_class false hex_ranges)) with (forallb is_hex); rewrite Hh;
  rewrite ?rest_set_cap, ?rest_advance; cbn [rest];
  rewrite ?rest_set_cap, ?rest_advance; cbn [rest];
  rewrite skipn_all2 with (l := h) by lia;
  cbn [orelse option_map matched]; f_equal; apply consumed_all;
  rewrite ?rest_set_cap, ?rest_advance; cbn [rest];
  rewrite ?rest_set_cap, ?rest_advance; cbn [rest];
  apply skipn_all2; lia.

Lemma match_uncompressed h i :
  length h = 128 -> forallb is_hex h = true ->
  option_map matched (match_at rePubKeyAnchored_ast i (MState None ("0" :: "4" :: h)%char []))
  = Some ("0" :: "4" :: h)%char.
Proof.
  intros Hl Hh. unfold match_at, rePubKeyAnchored_ast.
  rx. fold hex_ranges. run_through h Hl Hh.
Qed.

Lemma match_compressed c h i :
  c = "2"%char \/ c = "3"%char ->
  length h = 64 -> forallb is_hex h = true ->
  option_map matched (match_at rePubKeyAnchored_ast i (MState None ("0"%char :: c :: h) []))
  = Some ("0"%char :: c :: h).
Proof.
  intros [-> | ->] Hl Hh; unfold match_at, rePubKeyAnchored_ast.
  - rx. fold hex_ranges. run_through h Hl Hh.
  - rx. fold hex_ranges. run_through h Hl Hh.
Qed.

Ltac rx' :=
  repeat (first
    [ progress autorewrite with rmatch
    | progress cbv beta zeta
    | progress cbn [prev rest caps orelse set_cap groups_of clear_caps filter app
                    max_is_zero negb Nat.eqb existsb fst andb orb option_map pred]
    | progress unfold clear_caps
    | class_step
    | rewrite RepeatMatcher_class_exact by (cbn [length rest]; lia)
    | rewrite RepeatMatcher_S ]).

Ltac run_through' h Hl Hh :=
  rewrite Hl; cbn [Nat.leb andb]; rewrite firstn_all2 with (l := h) by lia;
  change (forallb (in_class false hex_ranges)) with (forallb is_hex); rewrite Hh;
  cbn [orelse option_map matched]; f_equal; apply consumed_all;
  rewrite ?rest_set_cap, ?rest_advance; cbn [rest];
  rewrite ?rest_set_cap, ?rest_advance; cbn [rest];
  apply skipn_all2; lia.

Lemma match_raw_key k n i :
  RawPubKey k n ->
  option_map matched (match_at reKeyExp_ast i (MState None k [])) = Some k.
Proof.
  intros [c h [-> | ->] Hl Hh | h Hl Hh]; unfold match_at, reKeyExp_ast;
    rx'; fold hex_ranges; run_through' h Hl Hh.
Qed.

Lemma String_match_raw_key k n :
  RawPubKey k n -> option_map matched (String_match k reKeyExp) = Some k.
Proof.
  intros H. unfold String_match, exec. rewrite compile_reKeyExp.
  pose proof (match_raw_key k n 0 H) as Hm.
  destruct H; cbn [exec_from]; destruct (match_at _ _ _); try discriminate; exact Hm.
Qed.

Lemma String_match_raw_key_anchored k n :
  RawPubKey k n ->
  option_map matched (String_match k (anchorStartAndEnd rePubKey)) = Some k.
Proof.
  intros H. unfold String_match, exec. rewrite compile_rePubKeyAnchored.
  destruct H as [c h Hc Hl Hh | h Hl Hh].
  - pose proof (match_compressed c h 0 Hc Hl Hh) as Hm.
    cbn [exec_from]; destruct (match_at _ _ _); try discriminate; exact Hm.
  - pose proof (match_uncompressed h 0 Hl Hh) as Hm.
    cbn [exec_from]; destruct (match_at _ _ _); try discriminate; exact Hm.
Qed.

(** A text that starts with 0 has no leading origin to remove. *)
Lemma no_leading_origin t :
  String_replace ("0"%char :: t) reLeadingOrigin (str "") = "0"%char :: t.
Proof.
  unfold String_replace, String_match, exec. rewrite compile_reLeadingOrigin.
  cbn [exec_from]. unfold match_at, reLeadingOrigin_ast. rx'.
  unfold consumed. cbn [rest length]. rewrite Nat.sub_diag. reflexivity.
Qed.

Lemma hex_value_Some c : is_hex c = true -> exists v, hex_value c = Some v.
Proof.
  unfold is_hex, hex_value, in_class, hex_ranges. cbn [existsb xorb].
  rewrite orb_false_r.
  destruct (in_range c ("0", "9")%char); [eauto|].
  destruct (in_range c ("a", "f")%char); [eauto|].
  destruct (in_range c ("A", "F")%char); [eauto|discriminate].
Qed.

Lemma Buffer_from_hex_length n : forall s,
  length s = 2 * n -> forallb is_hex s = true -> length (Buffer_from_hex s) = n.
Proof.
  induction n as [|n IH]; intros s Hl Hh.
  - destruct s; [reflexivity|discriminate].
  - destruct s as [|a [|b t]]; try (simpl in Hl; lia).
    cbn [forallb] in Hh. rewrite !andb_true_iff in Hh. destruct Hh as (Ha & Hb & Ht).
    destruct (hex_value_Some a Ha) as [x Hx]. destruct (hex_value_Some b Hb) as [y Hy].
    cbn [Buffer_from_hex]. rewrite Hx, Hy. cbn [length]. f_equal.
    apply IH; [simpl in Hl; lia|exact Ht].
Qed.

Lemma RawPubKey_length k n : RawPubKey k n -> length (Buffer_from_hex k) = n.
Proof.
  intros [c h Hc Hl Hh | h Hl Hh].
  - apply Buffer_from_hex_length; [simpl; lia|].
    cbn [forallb]. rewrite Hh, andb_true_r. destruct Hc as [-> | ->]; reflexivity.
  - apply Buffer_from_hex_length; [simpl; lia|]. cbn [forallb]. now rewrite Hh.
Qed.

Section Keys.

Context {Sv : Services}.

(** What [keyExpression2PubKey] does with a raw public key. *)
Lemma keyExpression2PubKey_raw keyExpression actualKey n network isSegwit :
  option_map matched (String_match keyExpression reKeyExp) = Some keyExpression ->
  String_replace keyExpression reLeadingOrigin "" = actualKey ->
  RawPubKey actualKey n ->
  keyExpression2PubKey keyExpression network isSegwit =
  if negb (ecc_isPoint (Buffer_from_hex actualKey))
     || (default isSegwit true && negb (n =? 33)%nat)
  then Throw InvalidPubKey
  else OK (Buffer_from_hex actualKey).
Proof.
  intros Hk Ha Hraw. unfold keyExpression2PubKey. cbv zeta.
  destruct (String_match keyExpression reKeyExp) as [m|]; [|discriminate].
  cbn [option_map] in Hk. injection Hk as Hk. rewrite Hk, jsstring_eqb_refl. cbn [negb].
  rewrite Ha.
  pose proof (String_match_raw_key_anchored _ _ Hraw) as Hm.
  destruct (String_match actualKey (anchorStartAndEnd rePubKey)) as [m'|]; [|discriminate].
  cbn [option_map] in Hm. injection Hm as Hm. rewrite Hm.
  rewrite (RawPubKey_length _ _ Hraw).
  assert ((n =? 33)%nat || (n =? 65)%nat = true) as Hn by (destruct Hraw; reflexivity).
  rewrite Hn. cbn [negb]. rewrite orb_false_r. reflexivity.
Qed.

(** C5: a key expression whose actual key is a raw public key: with
    isSegwit true an uncompressed key of 65 bytes fails with InvalidPubKey;
    with isSegwit false a key of 33 or of 65 bytes that the curve provider
    accepts resolves to its bytes. *)
Theorem segwit_compression keyExpression actualKey n network :
  option_map matched (String_match keyExpression reKeyExp) = Some keyExpression ->
  String_replace keyExpression reLeadingOrigin "" = actualKey ->
  RawPubKey actualKey n ->
  (n = 65 -> keyExpression2PubKey keyExpression network (Some true) = Throw InvalidPubKey) /\
  (ecc_isPoint (Buffer_from_hex actualKey) = true ->
   keyExpression2PubKey keyExpression network (Some false) = OK (Buffer_from_hex actualKey)).
Proof.
  intros Hk Ha Hraw. split.
  - intros ->. rewrite (keyExpression2PubKey_raw _ _ _ _ _ Hk Ha Hraw).
    cbn [default andb Nat.eqb negb]. now rewrite orb_true_r.
  - intros Hp. rewrite (keyExpression2PubKey_raw _ _ _ _ _ Hk Ha Hraw).
    rewrite Hp. reflexivity.
Qed.

(** C10: the static resolver, called without isSegwit, treats an
    uncompressed key as in a SegWit context and fails with InvalidPubKey,
    although with isSegwit false the same key resolves. *)
Theorem static_resolver_defaults_to_segwit keyExpression actualKey network :
  option_map matched (String_match keyExpression reKeyExp) = Some keyExpression ->
  String_replace keyExpression reLeadingOrigin "" = actualKey ->
  RawPubKey actualKey 65 ->
  ecc_isPoint (Buffer_from_hex actualKey) = true ->
  Descriptor_keyExpression2PubKey keyExpression network None = Throw InvalidPubKey /\
  Descriptor_keyExpression2PubKey keyExpression network (Some false) =
    OK (Buffer_from_hex actualKey).
Proof.
  intros Hk Ha Hraw Hp. unfold Descriptor_keyExpression2PubKey. cbv zeta.
  rewrite !(keyExpression2PubKey_raw _ _ _ _ _ Hk Ha Hraw), Hp. split; reflexivity.
Qed.

(** A raw public key on its own is a key expression, and its own actual
    key. *)
Lemma raw_key_expression k n :
  RawPubKey k n ->
  option_map matched (String_match k reKeyExp) = Some k /\
  String_replace k reLeadingOrigin "" = k.
Proof.
  intros H. split; [now apply String_match_raw_key with n|].
  destruct H; apply no_leading_origin.
Qed.

End Keys.

Lemma uncompressed_G_raw : RawPubKey uncompressed_G 65.
Proof. apply (Uncompressed (skipn 2 uncompressed_G)); reflexivity. Qed.

Lemma segwit_compression_witness :
  keyExpression2PubKey (Sv := reference) ("[d34db33f/49'/0'/0']" +++ uncompressed_G) None (Some true)
    = Throw InvalidPubKey /\
  keyExpression2PubKey (Sv := reference) ("[d34db33f/49'/0'/0']" +++ uncompressed_G) None (Some false)
    = OK (Buffer_from_hex uncompressed_G).
Proof.
  pose proof (segwit_compression (Sv := reference)
                ("[d34db33f/49'/0'/0']" +++ uncompressed_G) uncompressed_G 65 None) as H.
  destruct H as [H1 H2]; [vm_compute; reflexivity | vm_compute; reflexivity
                         | exact uncompressed_G_raw |].
  split; [apply H1; reflexivity | apply H2; vm_compute; reflexivity].
Defined.

Lemma decimal_inj a b : decimal a = decimal b -> a = b.
Proof.
  unfold decimal, str. intros H.
  apply (f_equal string_of_list_ascii) in H.
  rewrite !string_of_list_ascii_of_string in H.
  apply DecimalN.Unsigned.to_uint_inj.
  apply (f_equal NilEmpty.uint_of_string) in H. rewrite !NilEmpty.usu in H.
  now injection H.
Qed.

Lemma variable_inj a b : variable a = variable b -> a = b.
Proof.
  unfold variable. intros H. apply app_inv_head in H.
  apply decimal_inj in H. lia.
Qed.

Lemma object_set_fresh (o : object) key value :
  ~ In key (Object_keys o) -> object_set o key value = o ++ [(key, value)].
Proof.
  induction o as [|[k v] o IH]; intros H; [reflexivity|].
  cbn [object_set]. destruct (jsstring_eqb k key) eqn:E.
  - apply jsstring_eqb_eq in E. exfalso. apply H. now left.
  - cbn [app]. f_equal. apply IH. intros Hin. apply H. now right.
Qed.



(** One byte in hexadecimal decodes to the byte. *)
Lemma Buffer_from_hex_byte x t :
  Buffer_from_hex (hex_digit (Byte.to_N x / 16) :: hex_digit (Byte.to_N x mod 16) :: t) =
  x :: Buffer_from_hex t.
Proof. destruct x; reflexivity. Qed.

Lemma Buffer_hex_round_trip b : Buffer_from_hex (Buffer_toString_hex b) = b.
Proof.
  induction b as [|x b IH]; [reflexivity|].
  unfold Buffer_toString_hex. cbn [flat_map app].
  fold (Buffer_toString_hex b). rewrite Buffer_from_hex_byte. now rewrite IH.
Qed.

Lemma Buffer_toString_hex_inj a b :
  Buffer_toString_hex a = Buffer_toString_hex b -> a = b.
Proof.
  intros H. rewrite <- (Buffer_hex_round_trip a), <- (Buffer_hex_round_trip b). now rewrite H.
Qed.


Section Solve.

Context {Sv : Services}.

(** The key substitution, when every key expression resolves: the pubkeys
    are recorded in order under the variables [@0], [@1], ... *)
Lemma callbacks_assignKey network isSegwit : forall ms pubs keyMap,
  Object_keys keyMap = map variable (seq 0 (length keyMap)) ->
  Forall2 (fun k p => keyExpression2PubKey k (Some network) (Some isSegwit) = OK p)
          (map matched ms) pubs ->
  exists reps keyMap',
    callbacks (assignKey network isSegwit) ms keyMap = OK (reps, keyMap') /\
    Object_values keyMap' = Object_values keyMap ++ map Buffer_toString_hex pubs.
Proof.
  induction ms as [|m ms IH]; intros pubs keyMap Hkeys Hres.
  - inversion Hres; subst. exists [], keyMap. split; [reflexivity|].
    now rewrite app_nil_r.
  - cbn [map] in Hres. inversion Hres as [|k p ks ps Hk Hrest]; subst.
    cbn [callbacks]. unfold assignKey at 1. rewrite Hk. cbn [bind].
    fold (variable (length (Object_keys keyMap))).
    assert (length (Object_keys keyMap) = length keyMap) as Hlen
      by (unfold Object_keys; apply length_map).
    rewrite Hlen. rewrite object_set_fresh.
    2:{ rewrite Hkeys. intros Hin. apply in_map_iff in Hin.
        destruct Hin as (j & Hj & Hin). apply variable_inj in Hj. subst j.
        apply in_seq in Hin. lia. }
    destruct (IH ps (keyMap ++ [(variable (length keyMap), Buffer_toString_hex p)]))
      as (reps & keyMap' & Hc & Hv).
    + unfold Object_keys. rewrite map_app, length_app. cbn [map length fst].
      replace (length keyMap + 1) with (S (length keyMap)) by lia.
      rewrite seq_S, map_app. cbn [map Nat.add]. f_equal. exact Hkeys.
    + exact Hrest.
    + rewrite Hc. cbn [bind]. eexists _, keyMap'. split; [reflexivity|].
      rewrite Hv. unfold Object_values. rewrite map_app. cbn [map snd].
      rewrite <- app_assoc. reflexivity.
Qed.


End Solve.

Section Limits.

Context {Sv : Services}.



(** C1: the Descriptor of addr(A) stores the address and nothing else: the
    output script computed to validate the address is dropped, getAddress
    returns A, and getScriptPubKey throws. *)
Theorem addr_descriptor_has_no_script expression index cr allow unknowns network iso A d :
  isolate expression (default cr false) index = OK iso ->
  capture1 iso reAddrAnchored = Some A ->
  A <> [] ->
  Descriptor_new expression index cr allow unknowns network = OK d ->
  address_toOutputScript A (default network networks_bitcoin) <> None /\
  getPayment d = mkPayment None (Some A) None None None /\
  getAddress d = OK A /\
  getScriptPubKey d = Throw NoOutput.
Proof.
  intros Hiso Hcap HA H. unfold Descriptor_new in H. cbv zeta in H.
  rewrite Hiso in H. cbn [bind] in H. rewrite Hcap in H.
  destruct A as [|a A]; [contradiction|]. cbn [falsy negb default] in H.
  destruct (address_toOutputScript (a :: A) (default network networks_bitcoin)) eqn:E;
    [|discriminate].
  injection H as <-. repeat split; congruence.
Qed.

End Limits.

Lemma flat_map_id_on {A} (f : A -> list A) (s : list A) :
  (forall c, In c s -> f c = [c]) -> flat_map f s = s.
Proof.
  induction s as [|c s IH]; intros H; [reflexivity|].
  cbn [flat_map]. rewrite (H c) by now left. cbn [app]. f_equal.
  apply IH. intros x Hx. apply H. now right.
Qed.

Lemma digit_not_letter c x :
  is_digit c = true -> is_digit x = false -> ascii_eqb x c = false.
Proof.
  intros Hc Hx. destruct (ascii_eqb x c) eqn:E; [|reflexivity].
  apply Ascii.eqb_eq in E. subst. congruence.
Qed.

Lemma all_digits_forallb s : all_digits s = true -> forallb is_digit s = true /\ s <> [].
Proof. destruct s; [discriminate|]. intros H. split; [exact H|discriminate]. Qed.

Lemma in_range_single a c : in_range a (c, c) = ascii_eqb c a.
Proof.
  rewrite <- in_class_single. unfold in_class. cbn [existsb xorb].
  now rewrite orb_false_r.
Qed.

Lemma normalize_level l :
  well_formed l = true ->
  flat_map unhardening (flat_map unHardening (level_text l)) = normalized l.
Proof.
  unfold well_formed, level_text, normalized. rewrite andb_true_iff. intros [Hd Hh].
  apply all_digits_forallb in Hd as [Hd _]. rewrite forallb_forall in Hd.
  rewrite !flat_map_app. f_equal.
  - rewrite (flat_map_id_on unHardening).
    + apply flat_map_id_on. intros c Hc.
      unfold unhardening. now rewrite (digit_not_letter c "h"%char) by auto.
    + intros c Hc. unfold unHardening. now rewrite (digit_not_letter c "H"%char) by auto.
  - destruct (hardener l) as [c|]; [|reflexivity].
    unfold is_hardener, in_class in Hh. cbn [existsb xorb] in Hh.
    rewrite !orb_true_iff in Hh.
    rewrite !in_range_single in Hh. unfold ascii_eqb in Hh.
    assert (c = "'"%char \/ c = "h"%char \/ c = "H"%char) as Hc.
    { destruct Hh as [Hh|[Hh|[Hh|Hh]]]; try discriminate;
        apply Ascii.eqb_eq in Hh; auto. }
    destruct Hc as [-> | [-> | ->]]; reflexivity.
Qed.

Lemma replaceAll_H s : replaceAll s "H" "'" = flat_map unHardening s.
Proof. apply replaceAll_char. Qed.

Lemma replaceAll_h s : replaceAll s "h" "'" = flat_map unhardening s.
Proof. apply replaceAll_char. Qed.

Lemma normalize_path ls :
  forallb well_formed ls = true ->
  replaceAll (replaceAll (path_text ls) "H" "'") "h" "'" =
  flat_map (fun l => "/"%char :: normalized l) ls.
Proof.
  intros H. rewrite replaceAll_H, replaceAll_h.
  unfold path_text. induction ls as [|l ls IH]; [reflexivity|].
  cbn [forallb] in H. apply andb_true_iff in H as [Hl Hls].
  cbn [flat_map]. rewrite !flat_map_app. rewrite (IH Hls). f_equal.
  cbn [flat_map]. change (unHardening "/"%char) with ["/"%char]. cbn [app flat_map].
  change (unhardening "/"%char) with ["/"%char]. cbn [app].
  f_equal. now apply normalize_level.
Qed.

Lemma no_slash_normalized l :
  well_formed l = true -> forall c, In c (normalized l) -> ascii_eqb "/"%char c = false.
Proof.
  unfold well_formed, normalized. rewrite andb_true_iff. intros [Hd _] c Hc.
  apply all_digits_forallb in Hd as [Hd _]. rewrite forallb_forall in Hd.
  apply in_app_or in Hc as [Hc|Hc].
  - apply digit_not_letter; auto.
  - destruct (hardener l); [|contradiction]. destruct Hc as [<-|[]]. reflexivity.
Qed.

(** Splitting at a one-character separator. *)
Lemma split_go_piece sep (a : jsstring) : forall cur,
  (forall c, In c a -> ascii_eqb sep c = false) ->
  split_go [sep] a cur 0 = [rev cur ++ a].
Proof.
  induction a as [|c a IH]; intros cur H.
  - cbn [split_go]. now rewrite app_nil_r.
  - cbn [split_go startsWith]. rewrite (H c) by now left. cbn [andb].
    rewrite IH by (intros x Hx; apply H; now right).
    cbn [rev]. now rewrite <- app_assoc.
Qed.

Lemma split_go_sep sep (a rest : jsstring) : forall cur,
  (forall c, In c a -> ascii_eqb sep c = false) ->
  split_go [sep] (a ++ sep :: rest) cur 0 = (rev cur ++ a) :: split_go [sep] rest [] 0.
Proof.
  induction a as [|c a IH]; intros cur H.
  - cbn [app split_go startsWith length Nat.sub].
    unfold ascii_eqb. rewrite Ascii.eqb_refl, startsWith_nil. cbn [andb].
    now rewrite app_nil_r.
  - cbn [app split_go startsWith]. rewrite (H c) by now left. cbn [andb].
    rewrite IH by (intros x Hx; apply H; now right).
    cbn [rev]. now rewrite <- app_assoc.
Qed.

Lemma split_normalized l ls :
  forallb well_formed (l :: ls) = true ->
  split_go ["/"%char] (normalized l ++ flat_map (fun l => "/"%char :: normalized l) ls) [] 0 =
  map normalized (l :: ls).
Proof.
  revert l. induction ls as [|l' ls IH]; intros l H.
  - cbn [flat_map map]. rewrite app_nil_r.
    cbn [forallb] in H. rewrite andb_true_r in H.
    now rewrite split_go_piece by now apply no_slash_normalized.
  - cbn [forallb] in H. apply andb_true_iff in H as [Hl Hls].
    cbn [flat_map]. cbn [app]. rewrite split_go_sep by now apply no_slash_normalized.
    cbn [rev app map]. f_equal. now apply IH.
Qed.

Lemma decimal_value_acc s : forall acc, (0 <= acc)%Z ->
  (0 <= fold_left (fun acc c => 10 * acc + Z.of_nat (digit_value c)) s acc)%Z.
Proof. induction s as [|c s IH]; intros acc H; cbn [fold_left]; [exact H|]. apply IH. lia. Qed.

Lemma decimal_value_nonneg s : (0 <= decimal_value s)%Z.
Proof. apply decimal_value_acc. lia. Qed.

(** A double at or above 2^31 comes from an integer at or above 2^31. *)
Lemma round_double_overflow v :
  (0 <= v)%Z ->
  negb (Number_isInteger (round_double v)) || number_geb (round_double v) 0x80000000 =
  (0x80000000 <=? v)%Z.
Proof.
  intros Hv. unfold round_double.
  destruct (Z.ltb_spec v (2 ^ 53)) as [Hs|Hb].
  - reflexivity.
  - cbv zeta.
    assert ((0x80000000 <=? v)%Z = true) as -> by (apply Z.leb_le; lia).
    match goal with |- context [if ?c then Infinity false else _] => destruct c end;
      [reflexivity|].
    cbn [Number_isInteger negb orb number_geb]. apply Z.leb_le.
    set (e := (Z.log2 v - 52)%Z).
    assert (53 <= Z.log2 v)%Z as Hlog by (apply Z.log2_le_pow2; lia).
    assert (0 < e)%Z as He by (unfold e; lia).
    assert (2 ^ 52 <= Z.shiftr v e)%Z as Hq.
    { rewrite Z.shiftr_div_pow2 by lia.
      apply Z.div_le_lower_bound; [apply Z.pow_pos_nonneg; lia|].
      rewrite Z.mul_comm, <- Z.pow_add_r by lia.
      replace (52 + e)%Z with (Z.log2 v) by (unfold e; lia).
      apply Z.log2_spec. lia. }
    assert (1 <= 2 ^ e)%Z as Hp by (pose proof (Z.pow_pos_nonneg 2 e); lia).
    fold e.
    assert (forall q, (2 ^ 52 <= q)%Z -> (0x80000000 <= q * 2 ^ e)%Z) as Hmul.
    { intros q Hq'. transitivity (2 ^ 52 * 1)%Z; [now vm_compute|].
      apply Z.mul_le_mono_nonneg; lia. }
    match goal with |- context [if ?c then _ else _] => destruct c end; apply Hmul; lia.
Qed.

Lemma endsWith_apostrophe_digits s :
  all_digits s = true -> endsWith s "'" = false.
Proof.
  intros H. apply all_digits_forallb in H as [H Hne]. rewrite forallb_forall in H.
  unfold endsWith. change (rev (str "'")) with ["'"%char].
  destruct (rev s) as [|c r] eqn:E.
  - apply (f_equal (@rev ascii)) in E. rewrite rev_involutive in E. contradiction.
  - cbn [startsWith]. rewrite startsWith_nil, andb_true_r.
    apply digit_not_letter; [|reflexivity]. apply H. apply in_rev. rewrite E. now left.
Qed.

Section DerivePath.

Context {Sv : Services}.

(** The test [derivePath] makes on one element of the normalized path. *)
Lemma element_check l :
  well_formed l = true ->
  let element := normalized l in
  let unhardened := if endsWith element "'" then slice_drop_last element 1 else element in
  negb (Number_isInteger (Number unhardened)) || number_geb (Number unhardened) 0x80000000 =
  overflows l.
Proof.
  intros Hw. cbv zeta. unfold well_formed in Hw. apply andb_true_iff in Hw as [Hd _].
  assert ((if endsWith (normalized l) "'" then slice_drop_last (normalized l) 1
           else normalized l) = digits l) as ->.
  { unfold normalized. destruct (hardener l).
    - unfold endsWith. change (str "'") with ["'"%char].
      rewrite rev_app_distr. cbn [rev app startsWith].
      change (ascii_eqb "'"%char "'"%char) with true. rewrite startsWith_nil. cbn [andb].
      unfold slice_drop_last. rewrite length_app. cbn [length].
      replace (length (digits l) + 1 - 1) with (length (digits l)) by lia.
      rewrite firstn_app, firstn_all, Nat.sub_diag. cbn [firstn]. apply app_nil_r.
    - rewrite app_nil_r. now rewrite endsWith_apostrophe_digits. }
  unfold Number. rewrite Hd. apply round_double_overflow, decimal_value_nonneg.
Qed.

(** C8: a derivation path of decimal levels, hardened or not: when a
    level is 2^31 or more the derivation fails with PathElementOverflow,
    otherwise the normalized path, hardeners written as apostrophes, is
    handed to the BIP32 service. *)
Theorem path_element_overflow node ls :
  ls <> [] ->
  forallb well_formed ls = true ->
  derivePath node (path_text ls) =
  if existsb overflows ls then Throw PathElementOverflow
  else orThrow InvalidExtendedKey (node_derivePath node (normalized_path ls)).
Proof.
  intros Hne Hw. unfold derivePath. cbv zeta.
  rewrite normalize_path by exact Hw. unfold slice_from. fold (normalized_path ls).
  assert (split (normalized_path ls) "/" = map normalized ls) as ->.
  { unfold normalized_path. destruct ls as [|l ls]; [contradiction|].
    cbn [flat_map app skipn]. change (split ?s (str "/")) with (split_go ["/"%char] s [] 0).
    now apply split_normalized. }
  clear Hne.
  generalize (orThrow InvalidExtendedKey (node_derivePath node (normalized_path ls))).
  intros r. induction ls as [|l ls IH].
  - reflexivity.
  - cbn [forallb] in Hw. apply andb_true_iff in Hw as [Hl Hls].
    cbn [map forEach existsb]. rewrite (element_check l Hl).
    destruct (overflows l); cbn [bind orb]; [reflexivity|].
    exact (IH Hls).
Qed.

End DerivePath.

Lemma addr_descriptor_witness :
  exists d,
    Descriptor_new (Sv := reference) addr_example None None None None None = OK d /\
    (address_toOutputScript (Services := reference)
       (str "bc1qw508d6qejxtdg4y5r3zarvary0c5xw7kv8f3t4") tt <> None /\
     getPayment d =
       mkPayment None (Some (str "bc1qw508d6qejxtdg4y5r3zarvary0c5xw7kv8f3t4")) None None None /\
     getAddress d = OK (str "bc1qw508d6qejxtdg4y5r3zarvary0c5xw7kv8f3t4") /\
     getScriptPubKey d = Throw NoOutput).
Proof.
  eexists. split; [vm_compute; reflexivity|].
  apply (addr_descriptor_has_no_script (Sv := reference) addr_example None None None None None
           addr_example).
  - vm_compute. reflexivity.
  - vm_compute. reflexivity.
  - discriminate.
  - vm_compute. reflexivity.
Defined.

Lemma checksum_round_trip_witness :
  exists d,
    Descriptor_new (Sv := reference) wpkh_G None None None None None = OK d /\
    Descriptor_new (Sv := reference) (wpkh_G +++ "#" +++ Descriptor_checksum wpkh_G)
      None (Some true) None None None = OK d.
Proof.
  eexists. split; [vm_compute; reflexivity|].
  apply (checksum_round_trip (Sv := reference)).
  - vm_compute. reflexivity.
  - vm_compute. reflexivity.
  - vm_compute. reflexivity.
Defined.

Lemma corrupted_checksum_witness :
  Descriptor_checksum (Sv := reference) wpkh_G = str "ucxz0gak" /\
  Descriptor_new (Sv := reference) (wpkh_G +++ "#qcxz0gak") None None None None None =
  Throw (InvalidChecksum (wpkh_G +++ "#qcxz0gak")).
Proof.
  split; [vm_compute; reflexivity|].
  apply (corrupted_checksum (Sv := reference) wpkh_G 0 "q"%char).
  - vm_compute. reflexivity.
  - lia.
  - vm_compute. reflexivity.
  - vm_compute. discriminate.
Defined.

(** The last checksum symbol replaced by a character that is no checksum
    symbol: the tail is no checksum any more, and the failure is a parse
    failure, or a missing checksum when one is required. *)
Lemma corrupted_checksum_counterexample :
  (exists d, Descriptor_new (Sv := reference) wpkh_G None None None None None = OK d) /\
  Descriptor_checksum (Sv := reference) wpkh_G = str "ucxz0gak" /\
  Descriptor_new (Sv := reference) (wpkh_G +++ "#ucxz0ga!") None None None None None =
    Throw (ParseFailure (wpkh_G +++ "#ucxz0ga!")) /\
  Descriptor_new (Sv := reference) (wpkh_G +++ "#ucxz0ga!") None (Some true) None None None =
    Throw (MissingChecksum (wpkh_G +++ "#ucxz0ga!")).
Proof.
  split; [eexists; vm_compute; reflexivity|].
  repeat split; vm_compute; reflexivity.
Qed.

Lemma range_lockstep_witness :
  same_outcome
    (Descriptor_new (Sv := reference) wpkh_range (Some (Int 7)) None None None None)
    (Descriptor_new (Sv := reference) (replaceAll wpkh_range "*" (decimal 7))
       None None None None None).
Proof.
  apply (range_lockstep (Sv := reference) wpkh_range 7 None None None None None).
  - lia.
  - vm_compute. reflexivity.
  - vm_compute. reflexivity.
Defined.

(** A range descriptor with its checksum: with index 7 it constructs, and
    the text with 7 written for the wildcard fails the checksum. *)
Lemma range_lockstep_counterexample :
  let R := wpkh_range +++ "#" +++ Descriptor_checksum (Sv := reference) wpkh_range in
  has_wildcard R = true /\
  (exists d,
     Descriptor_new (Sv := reference) R (Some (Int 7)) None None None None = OK d) /\
  Descriptor_new (Sv := reference) (replaceAll R "*" (decimal 7))
    (Some (Int 7)) None None None None =
  Throw (InvalidChecksum (replaceAll R "*" (decimal 7))).
Proof.
  cbv zeta. split; [vm_compute; reflexivity|].
  split; [eexists; vm_compute; reflexivity|vm_compute; reflexivity].
Qed.

Lemma static_resolver_witness :
  Descriptor_keyExpression2PubKey (Sv := reference) uncompressed_G None None =
    Throw InvalidPubKey /\
  Descriptor_keyExpression2PubKey (Sv := reference) uncompressed_G None (Some false) =
    OK (Buffer_from_hex uncompressed_G).
Proof.
  apply (static_resolver_defaults_to_segwit (Sv := reference) uncompressed_G uncompressed_G).
  - vm_compute. reflexivity.
  - vm_compute. reflexivity.
  - exact uncompressed_G_raw.
  - vm_compute. reflexivity.
Defined.



Lemma path_element_overflow_witness :
  derivePath (Sv := reference) (str "xpub", [])
    (path_text [Level "44" (Some "h"%char); Level "2147483648" None]) =
  Throw PathElementOverflow.
Proof.
  rewrite (path_element_overflow (Sv := reference)).
  - reflexivity.
  - discriminate.
  - reflexivity.
Defined.

Lemma index_unused_witness :
  Descriptor_new (Sv := reference) wpkh_G (Some (Int (-3))) None None None None =
  Descriptor_new (Sv := reference) wpkh_G None None None None None /\
  not_index_error
    (Descriptor_new (Sv := reference) wpkh_G (Some (Int (-3))) None None None None).
Proof.
  apply (index_unused_without_wildcard (Sv := reference) wpkh_G None None None None).
  vm_compute. reflexivity.
Defined.

Lemma avoids_bind {A B} bad (c : result A) (k : A -> result B) :
  avoids bad c -> (forall a, avoids bad (k a)) -> avoids bad (bind c k).
Proof. intros Hc Hk. destruct c as [a|e]; simpl; [apply Hk|exact Hc]. Qed.

Lemma avoids_orThrow {A} bad e (o : option A) : bad e = false -> avoids bad (orThrow e o).
Proof. intros He. destruct o; simpl; auto. Qed.

Lemma avoids_reduce {A B} bad (f : B -> A -> result B) l :
  (forall b a, avoids bad (f b a)) -> forall acc, avoids bad (reduce f l acc).
Proof.
  intros Hf. induction l as [|a l IH]; intros acc; cbn [reduce]; [exact I|].
  apply avoids_bind; [apply Hf|intros b; apply IH].
Qed.

Lemma avoids_callbacks {S} bad (f : jsstring -> S -> result (jsstring * S)) ms :
  (forall k st, avoids bad (f k st)) -> forall st, avoids bad (callbacks f ms st).
Proof.
  intros Hf. induction ms as [|m ms IH]; intros st; cbn [callbacks]; [exact I|].
  apply avoids_bind; [apply Hf|]. intros [rep st1].
  apply avoids_bind; [apply IH|]. intros [reps st2]. exact I.
Qed.

Lemma avoids_replace_callback {S} bad s source
  (f : jsstring -> S -> result (jsstring * S)) st :
  (forall k st, avoids bad (f k st)) ->
  avoids bad (String_replace_callback s source f st).
Proof.
  intros Hf. unfold String_replace_callback.
  apply avoids_bind; [now apply avoids_callbacks|]. intros [reps st']. exact I.
Qed.

Ltac avoid :=
  repeat (cbv beta zeta;
          match goal with
          | |- avoids _ (OK _) => exact I
          | |- avoids _ (Throw _) => reflexivity
          | |- avoids _ (orThrow _ _) => apply avoids_orThrow; reflexivity
          | |- avoids _ (bind _ _) => apply avoids_bind; [|intro]
          | |- avoids _ (reduce _ _ _) => apply avoids_reduce; intros
          | |- avoids _ (String_replace_callback _ _ _ _) =>
              apply avoids_replace_callback; intros
          | |- avoids _ (callbacks _ _ _) => apply avoids_callbacks; intros
          | |- avoids _ (if ?c then _ else _) => destruct c
          | |- avoids _ (match ?c with _ => _ end) => destruct c
          end).

Section More.

Context {Sv : Services}.

(** X1: [isolate] without its patterns.  A checksum is there exactly when
    the last nine characters are [#] and eight checksum symbols; it is
    compared with the checksum of what precedes it, and a difference is the
    InvalidChecksum error; without one the expression is taken whole, or
    refused with MissingChecksum when a checksum is required; only then,
    if a wildcard is left, the index is asked to be a non-negative integer
    and its text replaces every wildcard. *)
Theorem isolate_in_plain_terms expression checksumRequired index :
  isolate expression checksumRequired index =
  if checksum_tail expression then
    if jsstring_eqb (skipn (length expression - 8) expression)
                    (DescriptorChecksum (firstn (length expression - 9) expression))
    then particularize (firstn (length expression - 9) expression) index
    else Throw (InvalidChecksum expression)
  else if checksumRequired then Throw (MissingChecksum expression)
  else particularize expression index.
Proof. apply isolate_spec. Qed.

(** X2: when a checksum is required, an expression that does not end in a
    checksum token is refused with MissingChecksum, whatever else it holds
    and whatever the index. *)
Theorem checksum_required expression index allow unknowns network :
  checksum_tail expression = false ->
  Descriptor_new expression index (Some true) allow unknowns network =
  Throw (MissingChecksum expression).
Proof.
  intros H. unfold Descriptor_new. cbv zeta. cbn [default].
  now rewrite isolate_spec, H.
Qed.

(** X3: an expression with a wildcard and no checksum, constructed with an
    index that is absent, not an integer or negative, fails with
    InvalidIndex, before the expression is parsed. *)
Theorem range_needs_index expression index allow unknowns network :
  checksum_tail expression = false ->
  has_wildcard expression = true ->
  isInteger index = false \/ below_zero index = true ->
  Descriptor_new expression index None allow unknowns network =
  Throw (InvalidIndex index).
Proof.
  intros Ht Hw Hi. unfold Descriptor_new. cbv zeta. cbn [default].
  rewrite isolate_spec, Ht. unfold particularize. rewrite Hw.
  destruct Hi as [-> | ->]; [reflexivity|]. now rewrite orb_true_r.
Qed.

(** X4: a text followed by [#] and eight checksum symbols that are not the
    checksum of the text fails with InvalidChecksum, whatever the text,
    the index and the options. *)
Theorem checksum_checked_first e c index cr allow unknowns network :
  is_token ("#"%char :: c) = true ->
  c <> DescriptorChecksum e ->
  Descriptor_new (e ++ "#"%char :: c) index cr allow unknowns network =
  Throw (InvalidChecksum (e ++ "#"%char :: c)).
Proof. apply wrong_checksum. Qed.

(** X5: what [isolate] returns for an integer index below 2^53 has no
    wildcard left. *)
Theorem isolated_has_no_wildcard expression cr i iso :
  (i < 2 ^ 53)%Z ->
  isolate expression cr (Some (Int i)) = OK iso ->
  has_wildcard iso = false.
Proof.
  intros Hi. rewrite isolate_spec.
  assert (forall bare, particularize bare (Some (Int i)) = OK iso -> has_wildcard iso = false)
    as Hp.
  { intros bare. unfold particularize. destruct (has_wildcard bare) eqn:E.
    - cbn [isInteger Number_isInteger below_zero number_ltb negb orb].
      destruct (Z.ltb_spec i 0) as [Hneg|Hpos]; [discriminate|].
      rewrite toString_Int by lia. intros H. injection H as <-.
      apply has_wildcard_replaceAll, has_wildcard_decimal.
    - intros H. injection H as <-. exact E. }
  destruct (checksum_tail expression).
  - destruct (jsstring_eqb _ _); [apply Hp|discriminate].
  - destruct cr; [discriminate|apply Hp].
Qed.

(** X6: two expressions that [isolate] takes to the same bare expression
    are constructed alike, the same Descriptor or the same error: the
    expression as given is only named in messages. *)
Theorem constructed_from_isolated e1 e2 i1 i2 cr1 cr2 allow unknowns network iso :
  isolate e1 (default cr1 false) i1 = OK iso ->
  isolate e2 (default cr2 false) i2 = OK iso ->
  same_outcome (Descriptor_new e1 i1 cr1 allow unknowns network)
               (Descriptor_new e2 i2 cr2 allow unknowns network).
Proof. apply Descriptor_new_same_isolated. Qed.

(** X7: a raw public key without origin resolves to its bytes exactly when
    the curve provider accepts them and, in a SegWit context (the default),
    the key is compressed; otherwise the error is InvalidPubKey. *)
Theorem raw_key_resolution k n network isSegwit :
  RawPubKey k n ->
  keyExpression2PubKey k network isSegwit =
  if negb (ecc_isPoint (Buffer_from_hex k)) || (default isSegwit true && negb (n =? 33)%nat)
  then Throw InvalidPubKey
  else OK (Buffer_from_hex k).
Proof.
  intros H. destruct (raw_key_expression k n H) as [H1 H2].
  now apply keyExpression2PubKey_raw.
Qed.

Lemma callbacks_first_failure network isSegwit e : forall ms1 pubs m ms2 keyMap,
  Forall2 (fun k p => keyExpression2PubKey k (Some network) (Some isSegwit) = OK p)
          (map matched ms1) pubs ->
  keyExpression2PubKey (matched m) (Some network) (Some isSegwit) = Throw e ->
  callbacks (assignKey network isSegwit) (ms1 ++ m :: ms2) keyMap = Throw e.
Proof.
  induction ms1 as [|m1 ms1 IH]; intros pubs m ms2 keyMap Hres Hm.
  - cbn [app callbacks]. unfold assignKey. now rewrite Hm.
  - cbn [map] in Hres. inversion Hres as [|k p ks ps Hk Hrest]; subst.
    cbn [app callbacks]. unfold assignKey at 1. rewrite Hk. cbn [bind].
    now rewrite (IH ps m ms2 _ Hrest Hm).
Qed.

(** X8: the first key expression of a miniscript that does not resolve
    decides the error of [solveMiniscript]: the keys after it are not
    looked at and nothing is compiled. *)
Theorem first_unresolved_key miniscript isSegwit unknowns network ks1 k ks2 pubs e :
  keyExpressions miniscript = ks1 ++ k :: ks2 ->
  Forall2 (fun k p =>
             keyExpression2PubKey k (Some (default network networks_bitcoin))
               (Some (default isSegwit true)) = OK p) ks1 pubs ->
  keyExpression2PubKey k (Some (default network networks_bitcoin))
    (Some (default isSegwit true)) = Throw e ->
  solveMiniscript miniscript isSegwit unknowns network = Throw e.
Proof.
  intros Hks Hres Hk. unfold keyExpressions in Hks.
  apply map_eq_app in Hks as (ms1 & rest & Hms & <- & Hrest).
  destruct rest as [|m ms2]; [discriminate|]. cbn [map] in Hrest.
  injection Hrest as <- <-.
  unfold solveMiniscript. cbv zeta. unfold String_replace_callback.
  rewrite Hms. now rewrite (callbacks_first_failure _ _ e ms1 pubs m ms2 [] Hres Hk).
Qed.

(** X9: a miniscript whose key expressions resolve to distinct public keys
    is never reported as having duplicate keys, whatever the compiler and
    the satisfier do. *)
Theorem distinct_keys_accepted miniscript isSegwit unknowns network pubs :
  Forall2 (fun k p =>
             keyExpression2PubKey k (Some (default network networks_bitcoin))
               (Some (default isSegwit true)) = OK p)
          (keyExpressions miniscript) pubs ->
  NoDup pubs ->
  avoids is_DuplicateKey (solveMiniscript miniscript isSegwit unknowns network).
Proof.
  intros Hres Hnd. unfold solveMiniscript. cbv zeta. unfold String_replace_callback at 1.
  destruct (callbacks_assignKey _ _ _ pubs [] eq_refl Hres) as (reps & keyMap & Hc & Hv).
  rewrite Hc. cbn [bind]. change (Object_values [] ++ ?x) with x in Hv. rewrite Hv.
  assert (NoDup (map Buffer_toString_hex pubs)) as Hnd'.
  { clear -Hnd. induction Hnd as [|p l Hin Hnd IH]; cbn [map]; constructor; [|exact IH].
    intros H. apply in_map_iff in H as (q & Hq & Hq').
    apply Buffer_toString_hex_inj in Hq. now subst. }
  unfold Set_size. rewrite (nodup_fixed_point jsstring_eq_dec Hnd'), Nat.eqb_refl.
  cbn [negb]. avoid.
Qed.

End More.

Lemma compressed_G_raw : RawPubKey compressed_G 33.
Proof. apply (Compressed "2"%char (skipn 2 compressed_G)); [now left|reflexivity|reflexivity]. Qed.

Lemma checksum_required_witness :
  Descriptor_new (Sv := reference) wpkh_G None (Some true) None None None =
  Throw (MissingChecksum wpkh_G).
Proof.
  apply (checksum_required (Sv := reference) wpkh_G None None None None).
  vm_compute. reflexivity.
Defined.

Lemma range_needs_index_witness :
  Descriptor_new (Sv := reference) wpkh_range (Some (Int (-1))) None None None None =
  Throw (InvalidIndex (Some (Int (-1)))).
Proof.
  apply (range_needs_index (Sv := reference) wpkh_range (Some (Int (-1))) None None None).
  - vm_compute. reflexivity.
  - vm_compute. reflexivity.
  - right. reflexivity.
Defined.

Lemma checksum_checked_first_witness :
  Descriptor_new (Sv := reference) (wpkh_G ++ "#"%char :: str "qqqqqqqq")
    None None None None None =
  Throw (InvalidChecksum (wpkh_G ++ "#"%char :: str "qqqqqqqq")).
Proof.
  apply (checksum_checked_first (Sv := reference) wpkh_G (str "qqqqqqqq")).
  - vm_compute. reflexivity.
  - vm_compute. discriminate.
Defined.

Lemma isolated_has_no_wildcard_witness :
  has_wildcard (replaceAll wpkh_range "*" (decimal 7)) = false.
Proof.
  apply (isolated_has_no_wildcard (Sv := reference) wpkh_range false 7).
  - lia.
  - vm_compute. reflexivity.
Defined.

Lemma constructed_from_isolated_witness :
  same_outcome
    (Descriptor_new (Sv := reference) wpkh_G None None None None None)
    (Descriptor_new (Sv := reference) (wpkh_G +++ "#ucxz0gak") (Some (Int 5)) (Some true)
       None None None).
Proof.
  apply (constructed_from_isolated (Sv := reference) wpkh_G (wpkh_G +++ "#ucxz0gak")
           None (Some (Int 5)) None (Some true) None None None wpkh_G).
  - vm_compute. reflexivity.
  - vm_compute. reflexivity.
Defined.

Lemma raw_key_resolution_witness :
  keyExpression2PubKey (Sv := reference) compressed_G None None =
  OK (Buffer_from_hex compressed_G).
Proof.
  rewrite (raw_key_resolution (Sv := reference) compressed_G 33 None None compressed_G_raw).
  reflexivity.
Defined.

Lemma first_unresolved_key_witness :
  solveMiniscript (Sv := reference) two_keys None None None = Throw InvalidPubKey.
Proof.
  apply (first_unresolved_key (Sv := reference) two_keys None None None
           [compressed_G] uncompressed_G [] [Buffer_from_hex compressed_G]).
  - vm_compute. reflexivity.
  - repeat constructor; vm_compute; reflexivity.
  - vm_compute. reflexivity.
Defined.

Lemma distinct_keys_accepted_witness :
  avoids is_DuplicateKey (solveMiniscript (Sv := reference) two_keys (Some false) None None).
Proof.
  apply (distinct_keys_accepted (Sv := reference) two_keys (Some false) None None
           [Buffer_from_hex compressed_G; Buffer_from_hex uncompressed_G]).
  - replace (keyExpressions two_keys) with [compressed_G; uncompressed_G]
      by (vm_compute; reflexivity).
    repeat constructor; vm_compute; reflexivity.
  - constructor; [|constructor; [intros []|constructor]].
    intros [H|[]]. vm_compute in H. discriminate.
Defined.

Lemma range_with_checksum_witness :
  same_outcome
    (Descriptor_new (Sv := reference)
       (wpkh_range ++ "#"%char :: DescriptorChecksum (Services := reference) wpkh_range)
       (Some (Int 7)) None None None None)
    (Descriptor_new (Sv := reference) (replaceAll wpkh_range "*" (decimal 7))
       None None None None None).
Proof.
  apply (range_with_checksum (Sv := reference) wpkh_range 7 None None None None None).
  - lia.
  - vm_compute. reflexivity.
  - vm_compute. reflexivity.
Defined.
